(** * Choropleth colour schemes and travel-time aggregation

    A shallow embedding of the two JavaScript files of the interactive map:

    - the mapping helpers ([ColorScheme], [ColorSchemeNumeric],
      [ColorSchemeCategorical]) with [legend_html] and the two
      [color_from_value] methods;
    - the travel-time script ([ttColorScheme], [update_travel_times] and
      the pass [data_layer.eachLayer(...)] run by the checkbox handler).

    JavaScript numbers are idealised: a finite number is a rational, and
    [NaN] and the two infinities are kept apart.  Only comparisons and
    [Math.max] are applied to numbers by the code, and neither rounds. *)

From Stdlib Require Import QArith Qcanon Qround Lqa Ascii String DecimalString.
From stdpp Require Import gmap strings list fin_maps.

Local Open Scope string_scope.

(** ** JavaScript numbers *)

Module Num.

Inductive number : Type :=
| NaN
| NegInf
| Fin (q : Qc)
| PosInf.

Definition of_Z (z : Z) : number := Fin (Q2Qc (inject_Z z)).

Definition is_NaN (x : number) : bool :=
  match x with NaN => true | _ => false end.

(** The abstract relational comparison [x < y] of ECMAScript on numbers:
    [None] is its "undefined" answer, given when an operand is [NaN]. *)
Definition IsLessThan (x y : number) : option bool :=
  match x, y with
  | NaN, _ | _, NaN => None
  | PosInf, _ => Some false
  | _, PosInf => Some true
  | _, NegInf => Some false
  | NegInf, _ => Some true
  | Fin a, Fin b => Some (negb (Qle_bool b a))
  end.

(** [x < y] *)
Definition lt (x y : number) : bool :=
  match IsLessThan x y with Some true => true | _ => false end.

(** [x >= y]: false when [x < y] is true or undefined. *)
Definition ge (x y : number) : bool :=
  match IsLessThan x y with Some false => true | _ => false end.

(** [x <= y]: false when [y < x] is true or undefined. *)
Definition le (x y : number) : bool :=
  match IsLessThan y x with Some false => true | _ => false end.

(** [Math.max(x, y)] on two numbers. *)
Definition max (x y : number) : number :=
  match IsLessThan x y with
  | None => NaN
  | Some true => y
  | Some false => x
  end.

End Num.

Export Num (number, NaN, NegInf, Fin, PosInf).

(** ** JavaScript values held by feature properties

    The attributes of the dataset are numbers; a JSON [null] and a missing
    entry ([undefined]) are the two other values a property read can give. *)

Inductive jsval : Type :=
| VUndef
| VNull
| VNum (x : number).

Definition ToNumber (v : jsval) : number :=
  match v with
  | VUndef => NaN
  | VNull => Num.of_Z 0
  | VNum x => x
  end.

(** [Math.max(a, b)]: both arguments are coerced, then compared. *)
Definition Math_max (a b : jsval) : number := Num.max (ToNumber a) (ToNumber b).

(** [obj[key]] on an object read as a finite map: a missing key reads
    [undefined]. *)
Definition js_get (m : gmap string jsval) (key : string) : jsval :=
  default VUndef (m !! key).

(** [a[i]] on an array of numbers, as read by a comparison: out of range is
    [undefined]. *)
Definition index_num (a : list number) (i : nat) : jsval :=
  match a !! i with Some x => VNum x | None => VUndef end.

(** [v >= w] where both operands are coerced to numbers. *)
Definition js_ge (v w : jsval) : bool := Num.ge (ToNumber v) (ToNumber w).

(** ** ColorScheme *)

Definition dquote : string := String "034"%char EmptyString.

(** String concatenation with a value that may be [undefined]. *)
Definition str_of (o : option string) : string :=
  match o with Some s => s | None => "undefined" end.

Section ColorScheme.

(** [K] is the type of the classification keys: numbers for the numeric
    scheme, strings for the categorical one. *)
Context {K : Type}.

Record ColorScheme : Type := mkColorScheme {
  limits : list K;
  colors : list string;
  labels : list string;
  na_color : string
}.

(** [constructor(limits_asc, colors, labels, na_color = '#888')]: the four
    assignments; an omitted fourth argument takes the default. *)
Definition constructor (limits_asc : list K) (colors labels : list string)
    (na_color : option string) : ColorScheme :=
  {| limits := limits_asc;
     colors := colors;
     labels := labels;
     na_color := default "#888" na_color |}.

(** [[...Array(n).keys()]] enumerated by [for ... in]: the indices
    0, ..., n-1 in ascending order. *)
Definition keys_of_Array (n : nat) : list nat := seq 0 n.

Definition legend_entry (color : option string) (label : option string) : string :=
  "<b style=" +:+ dquote +:+ "background:" +:+ str_of color +:+ dquote
    +:+ "></b> " +:+ str_of label.

Definition legend_step (cs : ColorScheme) (innerHTML : string) (ii : nat) : string :=
  let innerHTML := innerHTML +:+ legend_entry (colors cs !! ii) (labels cs !! ii) in
  if (Z.of_nat ii <? Z.of_nat (length (labels cs)) - 1)%Z
  then innerHTML +:+ "<br/>"
  else innerHTML.

Definition legend_html (cs : ColorScheme) : string :=
  fold_left (legend_step cs) (keys_of_Array (length (labels cs))) "".

End ColorScheme.

Arguments ColorScheme K : clear implicits.

Definition ColorSchemeNumeric : Type := ColorScheme number.
Definition ColorSchemeCategorical : Type := ColorScheme string.

Module Numeric.

Definition step (cs : ColorSchemeNumeric) (value : jsval)
    (val_color : option string) (ii : nat) : option string :=
  if js_ge value (index_num (limits cs) ii) then colors cs !! ii else val_color.

(** [ColorSchemeNumeric.color_from_value]; the result is [None] when the
    method would return [undefined]. *)
Definition color_from_value (cs : ColorSchemeNumeric) (value : jsval) : option string :=
  fold_left (step cs value) (keys_of_Array (length (colors cs))) (Some (na_color cs)).

End Numeric.

Module Categorical.

(** [value == key] when each side is a string or [undefined]: no coercion
    takes place, and [undefined == undefined] holds. *)
Definition loose_eq (value key : option string) : bool :=
  bool_decide (value = key).

Definition step (cs : ColorSchemeCategorical) (value : option string)
    (val_color : option string) (ii : nat) : option string :=
  if loose_eq value (limits cs !! ii) then colors cs !! ii else val_color.

(** [ColorSchemeCategorical.color_from_value]; [value] is a string or
    [undefined] ([None]). *)
Definition color_from_value (cs : ColorSchemeCategorical) (value : option string)
    : option string :=
  fold_left (step cs value) (keys_of_Array (length (colors cs))) (Some (na_color cs)).

End Categorical.

(** The travel-time colour scheme of the map script. *)
Definition ttColorScheme : ColorSchemeNumeric :=
  constructor
    (map Num.of_Z [0; 5; 10; 15; 20; 25; 30]%Z)
    ["#0868ac"; "#5aabac"; "#abedab"; "#fda668"; "#dd643c"; "#b8432e"; "#999999"]
    ["Under 5 min"; "5 - 10 min"; "10 - 15 min"; "15 - 20 min"; "20 - 25 min";
     "25 - 30 min"; "Over 30 min"]
    None.

(** ** Layers, features and the heap

    A layer of [data_layer] is an object that may carry a GeoJSON feature;
    the feature has a geometry, which the script never reads, and a
    [properties] object.  The derived travel time lives in the same
    [properties] object as the per-destination values, under the key
    ["tt"].  Layers and the array of selected destinations are shared
    mutable objects: they sit in a heap, and a layer is passed around as
    its position in [data_layer]. *)

Inductive Geometry : Type :=
| Polygon (rings : list (list (number * number)))
| MultiPolygon (polygons : list (list (list (number * number)))).

Record Feature : Type := mkFeature {
  geometry : Geometry;
  properties : gmap string jsval
}.

Record Layer : Type := mkLayer {
  leaflet_id : Z;
  feature : option Feature
}.

Record heap : Type := mkHeap {
  h_layers : list Layer;
  h_destinations : list string
}.

Inductive js_error : Type := TypeError.

Inductive outcome (A : Type) : Type :=
| Normal (a : A)
| Throw (e : js_error).

Arguments Normal {A} a.
Arguments Throw {A} e.

(** Computations on the heap that either complete or throw. *)
Definition M (A : Type) : Type := heap -> outcome A * heap.

#[global] Instance M_ret : MRet M := fun A a h => (Normal a, h).

#[global] Instance M_bind : MBind M := fun A B f m h =>
  match m h with
  | (Normal a, h') => f a h'
  | (Throw e, h') => (Throw e, h')
  end.

Definition set_field (f : Feature) (key : string) (v : jsval) : Feature :=
  {| geometry := geometry f; properties := <[key := v]> (properties f) |}.

(** ['feature' in layer] *)
Definition has_feature (layer : nat) : M bool := fun h =>
  match h_layers h !! layer with
  | Some l => (Normal (bool_decide (is_Some (feature l))), h)
  | None => (Throw TypeError, h)
  end.

(** [layer.feature.properties[key]]: reading through a missing feature
    throws. *)
Definition get_property (layer : nat) (key : string) : M jsval := fun h =>
  match h_layers h !! layer with
  | Some {| feature := Some f |} => (Normal (js_get (properties f) key), h)
  | _ => (Throw TypeError, h)
  end.

(** [layer.feature.properties[key] = v] *)
Definition set_property (layer : nat) (key : string) (v : jsval) : M unit := fun h =>
  match h_layers h !! layer with
  | Some {| leaflet_id := id; feature := Some f |} =>
      (Normal (),
       {| h_layers := <[layer := {| leaflet_id := id;
                                    feature := Some (set_field f key v) |}]> (h_layers h);
          h_destinations := h_destinations h |})
  | _ => (Throw TypeError, h)
  end.

(** [destinations.length] *)
Definition destinations_length : M nat := fun h =>
  (Normal (length (h_destinations h)), h).

(** [destinations[k]], [None] past the end. *)
Definition destinations_at (k : nat) : M (option string) := fun h =>
  (Normal (h_destinations h !! k), h).

Fixpoint for_each_index (ks : list nat) (body : nat -> M unit) : M unit :=
  match ks with
  | [] => mret ()
  | k :: ks => body k ;; for_each_index ks body
  end.

(** [destinations.forEach(callback)]: the length is read once, then every
    index below it is visited in order and the element read at that time. *)
Definition forEach (callback : string -> M unit) : M unit :=
  len ← destinations_length;
  for_each_index (seq 0 len) (fun k =>
    d ← destinations_at k;
    match d with
    | Some destination => callback destination
    | None => mret ()
    end).

(** [update_travel_times(layer, destinations)], where [destinations] is the
    array of the heap. *)
Definition update_travel_times (layer : nat) : M nat :=
  b ← has_feature layer;
  (if b : bool then
     len ← destinations_length;
     if (len =? 0)%nat then
       set_property layer "tt" (VNum (Num.of_Z 999))
     else
       set_property layer "tt" (VNum (Num.of_Z 0));;
       forEach (fun destination =>
         t ← get_property layer "tt";
         v ← get_property layer destination;
         set_property layer "tt" (VNum (Math_max t v)))
   else mret ());;
  mret layer.

(** [data_layer.eachLayer(callback)]: the layers are visited in order; what
    the callback returns is dropped. *)
Definition eachLayer {A : Type} (callback : nat -> M A) : M unit :=
  fun h => for_each_index (seq 0 (length (h_layers h)))
             (fun layer => callback layer ;; mret ()) h.

(** The pass of the script and of the checkbox handler:
    [data_layer.eachLayer((layer) => update_travel_times(layer, map_terms))]. *)
Definition recompute_all : M unit := eachLayer update_travel_times.

(** The keys of the [destinations] object of the script, in its order. *)
Definition all_destinations : list string :=
  ["groceries"; "libraries"; "parks"; "bus_stops"; "link_stops"; "restaurants";
   "cafes"; "schools_el"; "schools_mid"; "schools_high"].

(** [get_map_terms()]: the loop over the keys of [destinations] that pushes
    the checked ones; [checked dest] is
    [document.getElementById(dest).checked]. *)
Definition get_map_terms (checked : string -> bool) : list string :=
  fold_left
    (fun checked_ids dest =>
       if checked dest then (checked_ids ++ [dest])%list else checked_ids)
    all_destinations [].

(** The field ["tt"] of a layer of the heap, if the layer has a feature. *)
Definition tt_of (h : heap) (layer : nat) : option jsval :=
  l ← h_layers h !! layer;
  f ← feature l;
  Some (js_get (properties f) "tt").

(** The [fillColor] of [tt_style(feature)]; the other fields of the style
    are constants. *)
Definition tt_style (feature : Feature) : option string :=
  Numeric.color_from_value ttColorScheme (js_get (properties feature) "tt").

(** ** The rest of the map script

    The [destinations] object: checkbox ids with their labels, in the order
    of the script. *)
Definition destinations : list (string * string) :=
  [("groceries", "Supermarkets"); ("libraries", "Libraries"); ("parks", "Parks");
   ("bus_stops", "Bus stops to downtown"); ("link_stops", "Link stations");
   ("restaurants", "Restaurants"); ("cafes", "Coffee shops");
   ("schools_el", "Elementary schools");
   ("schools_mid", "Middle/junior high schools");
   ("schools_high", "High schools")].

(** The initial value of [map_terms]. *)
Definition map_terms_init : list string := ["groceries"].

(** The boxes checked when the page loads: those named in [map_terms]. *)
Definition checked_init (dest : string) : bool :=
  bool_decide (dest ∈ map_terms_init).

(** What [Math.round] returns: [NaN], an infinity (kept), or an integer,
    the one nearest to the argument, a tie going up. *)
Inductive rounded : Type :=
| RNaN
| RNegInf
| RInt (z : Z)
| RPosInf.

Definition Math_round (x : number) : rounded :=
  match x with
  | NaN => RNaN
  | NegInf => RNegInf
  | PosInf => RPosInf
  | Fin q => RInt (Qfloor (q + (1 # 2)))
  end.

(** The string of a rounded number in a concatenation: the decimal digits
    of an integer (as JavaScript prints integers below 10^21; the script
    only prints integers from 5 to 30). *)
Definition rounded_to_string (r : rounded) : string :=
  match r with
  | RNaN => "NaN"
  | RNegInf => "-Infinity"
  | RPosInf => "Infinity"
  | RInt z => NilZero.string_of_int (Z.to_int z)
  end.

(** The label that [info.update] computes for one walking time
    [feature[d]]. *)
Definition tt_label (v : jsval) : string :=
  if Num.lt (ToNumber v) (Num.of_Z 5) then "<5 min."
  else if Num.lt (Num.of_Z 30) (ToNumber v) then ">30 min."
  else rounded_to_string (Math_round (ToNumber v)) +:+ " min.".

Section InfoBox.

(** [destinations] is a plain object: a name that is not one of its keys
    may still be a member inherited from [Object.prototype] ([toString],
    [constructor], ...).  [inherited_text d] is the text that a string
    concatenation gives for such a member, [None] for a name that
    [Object.prototype] does not have; it is fixed by the engine. *)
Variable inherited_text : string -> option string.

(** The text of [destinations[d]] in a concatenation. *)
Definition destinations_label (d : string) : string :=
  match (list_to_map destinations : gmap string string) !! d with
  | Some label => label
  | None => default "undefined" (inherited_text d)
  end.

(** The piece that [info.update] appends for the selected destination
    [d]. *)
Definition info_paragraph (feature : gmap string jsval) (d : string) : string :=
  "<p style=" +:+ dquote +:+ "margin:0px;" +:+ dquote +:+ ">"
    +:+ destinations_label d +:+ ": " +:+ tt_label (js_get feature d) +:+ "</p>".

(** What [info.update(feature)] writes to the box: the markup assigned to
    [innerHTML], then the pieces appended to it, in order.  [feature] is
    the properties object handed over by [highlightFeature], or [None] for
    the call without argument; [map_terms] is the current selection. *)
Definition info_update (feature : option (gmap string jsval)) (map_terms : list string)
    : string * list string :=
  match feature with
  | Some feature =>
      if (length map_terms =? 0)%nat then
        ("<h4>Select destinations, then<br/>hover over a tract for details</h4>", [])
      else
        ("<h4 style=" +:+ dquote +:+ "margin:0px;" +:+ dquote
           +:+ "><u>Walking time</u></h4>",
         fold_left (fun written d => (written ++ [info_paragraph feature d])%list)
           map_terms [])
  | None =>
      ("<h4>Select destinations, then<br/>hover over a tract for details</h4>", [])
  end.

End InfoBox.

(** [tt_style(layer.feature)], as [setStyle] calls it on a layer: reading
    [feature.properties] throws when the layer has no feature. *)
Definition call_tt_style (layer : nat) : M (option string) := fun h =>
  match h_layers h !! layer with
  | Some {| feature := Some f |} => (Normal (tt_style f), h)
  | _ => (Throw TypeError, h)
  end.

(** [data_layer.setStyle(style)]: Leaflet calls the style function on the
    feature of every layer, in the order of [eachLayer], and hands each
    result to the renderer of the layer, which is outside the heap. *)
Definition setStyle (style : nat -> M (option string)) : M unit := eachLayer style.

(** The [input] handler of a checkbox: the three statements of its body. *)
Definition on_input (checked : string -> bool) : M unit :=
  (fun h => (Normal (), {| h_layers := h_layers h;
                           h_destinations := get_map_terms checked |}));;
  recompute_all;;
  setStyle call_tt_style.

(** What the script does to the layers when it loads: the pass with the
    initial selection, then the restyling. *)
Definition initial_pass : M unit :=
  (fun h => (Normal (), {| h_layers := h_layers h; h_destinations := map_terms_init |}));;
  recompute_all;;
  setStyle call_tt_style.

(** Every layer of the heap carries a feature. *)
Definition all_features (h : heap) : Prop :=
  forall j l, h_layers h !! j = Some l -> is_Some (feature l).

(** ** Data of the scenarios *)

(** A block with three travel times, no ["tt"] yet. *)
Definition block_feature : Feature :=
  {| geometry := Polygon [];
     properties := {[ "groceries" := VNum (Num.of_Z 4);
                      "parks" := VNum (Num.of_Z 12);
                      "cafes" := VNum (Num.of_Z 2) ]} |}.

(** A heap with that block, a layer without feature, and a selection. *)
Definition block_heap (selection : list string) : heap :=
  {| h_layers := [ {| leaflet_id := 41; feature := Some block_feature |};
                   {| leaflet_id := 42; feature := None |} ];
     h_destinations := selection |}.

(** ** Notions used to state the properties *)

(** One step of a loop that overwrites its result at every index passing
    [test]: the shape of the body of both [color_from_value] methods. *)
Definition scan {A : Type} (test : nat -> bool) (pick : nat -> A) (acc : A) (ii : nat) : A :=
  if test ii then pick ii else acc.

(** The legend as the sequence of its entries: [pieces] joined by [sep],
    one separator between two neighbours and none at either end. *)
Definition joined (sep : string) (pieces : list string) : string :=
  String.concat sep pieces.

(** Entry [ii] of the legend of [cs]. *)
Definition entry_at {K : Type} (cs : ColorScheme K) (ii : nat) : string :=
  legend_entry (colors cs !! ii) (labels cs !! ii).

(** The heap with layers [L] and selection [D] in which the layer at
    position [layer] carries a feature with properties [P]. *)
Definition heap_at (L : list Layer) (D : list string) (layer : nat) (id : Z)
    (g : Geometry) (P : gmap string jsval) : heap :=
  {| h_layers := <[layer := {| leaflet_id := id;
                               feature := Some {| geometry := g; properties := P |} |}]> L;
     h_destinations := D |}.

(** The number of thresholds that a value reaches. *)
Definition bucket (ts : list number) (v : number) : nat :=
  length (filter (fun t => Num.ge v t = true) ts).

(** The colour of bucket [k] of a scheme: [na_color] below the first
    threshold, then the colours in order. *)
Definition bucket_color {K : Type} (cs : ColorScheme K) (k : nat) : option string :=
  match k with
  | 0 => Some (na_color cs)
  | S k => colors cs !! k
  end.

(** Thresholds [t_0 < t_1 < ...], compared as JavaScript compares. *)
Definition ascending (ts : list number) : Prop :=
  forall i a b, ts !! i = Some a -> ts !! S i = Some b -> Num.lt a b = true.



(** *** What the loops compute

    The net effect of [update_travel_times] on one [properties] object,
    written without the heap.  [running props dests t] is the value of
    ["tt"] after the [forEach] loop has visited [dests], starting from [t];
    a destination named ["tt"] reads the running value itself. *)
Definition running (props : gmap string jsval) (dests : list string) (t : number) : number :=
  fold_left
    (fun t d => Num.max t (ToNumber (js_get (<["tt" := VNum t]> props) d)))
    dests t.

Definition final_tt (props : gmap string jsval) (dests : list string) : number :=
  match dests with
  | [] => Num.of_Z 999
  | _ => running props dests (Num.of_Z 0)
  end.

Definition recompute (dests : list string) (l : Layer) : Layer :=
  match feature l with
  | Some f =>
      {| leaflet_id := leaflet_id l;
         feature := Some (set_field f "tt" (VNum (final_tt (properties f) dests))) |}
  | None => l
  end.

(** * Properties *)

(** ** The order on numbers *)

Module NumFacts.
Import Num.

Lemma Qle_bool_false (a b : Q) : Qle_bool a b = false -> (b < a)%Q.
Proof.
  intros E. apply Qnot_le_lt. intros H.
  apply Qle_bool_iff in H. congruence.
Qed.

Ltac q_cases :=
  repeat match goal with
  | H : context [Qle_bool ?a ?b] |- _ =>
      let E := fresh "E" in
      destruct (Qle_bool a b) eqn:E;
      [apply Qle_bool_iff in E | apply Qle_bool_false in E]
  | |- context [Qle_bool ?a ?b] =>
      let E := fresh "E" in
      destruct (Qle_bool a b) eqn:E;
      [apply Qle_bool_iff in E | apply Qle_bool_false in E]
  end.

Ltac num_order :=
  unfold lt, ge, le, max, IsLessThan, is_NaN in *;
  repeat match goal with x : number |- _ => destruct x end;
  simpl in *; try congruence; q_cases; simpl in *; try congruence;
  try (exfalso; lra).

Lemma le_ge x y : le x y = ge y x.
Proof. reflexivity. Qed.

Lemma lt_trans x y z : lt x y = true -> lt y z = true -> lt x z = true.
Proof. intros; num_order. Qed.

Lemma lt_ge_false x y : lt x y = true -> ge x y = false.
Proof. intros; num_order. Qed.

Lemma ge_refl x : is_NaN x = false -> ge x x = true.
Proof. intros; num_order. Qed.

Lemma ge_NaN_r x : ge x NaN = false.
Proof. num_order. Qed.

Lemma ge_total x y : is_NaN x = false -> is_NaN y = false -> ge x y = true \/ ge y x = true.
Proof. intros; num_order; auto. Qed.

Lemma ge_trans x y z : ge x y = true -> ge y z = true -> ge x z = true.
Proof. intros; num_order. Qed.

Lemma max_NaN_l y : max NaN y = NaN.
Proof. reflexivity. Qed.

Lemma max_NaN_r x : max x NaN = NaN.
Proof. by destruct x. Qed.

Lemma max_cases x y :
  is_NaN x = false -> is_NaN y = false ->
  (max x y = x /\ ge x y = true) \/ (max x y = y /\ ge y x = true).
Proof. intros; num_order; auto. Qed.


Lemma le_antisym x y : le x y = true -> le y x = true -> x = y.
Proof.
  intros Hxy Hyx. num_order.
  f_equal. apply Qc_is_canon. by apply Qle_antisym.
Qed.

End NumFacts.

(** ** Loops that keep the last hit

    Both [color_from_value] methods scan all indices and overwrite the
    result at each index that passes a test. *)

Section Scan.
Context {A : Type} (test : nat -> bool) (pick : nat -> A).

Lemma scan_no_hit ks acc :
  (forall j, j ∈ ks -> test j = false) -> fold_left (scan test pick) ks acc = acc.
Proof.
  revert acc. induction ks as [|k ks IH]; intros acc Hks; simpl; [done|].
  unfold scan at 2. rewrite (Hks k) by left.
  apply IH. intros j Hj. apply Hks. by right.
Qed.

Lemma scan_last_hit n i acc :
  i < n -> test i = true -> (forall j, i < j < n -> test j = false) ->
  fold_left (scan test pick) (seq 0 n) acc = pick i.
Proof.
  intros Hi Ht Hlater.
  replace n with (i + (1 + (n - S i))) by lia.
  rewrite !seq_app, !fold_left_app. simpl.
  unfold scan at 2. rewrite Ht.
  apply scan_no_hit. intros j Hj. apply elem_of_seq in Hj.
  apply Hlater. lia.
Qed.

Lemma scan_ext (test' : nat -> bool) (pick' : nat -> A) ks acc :
  (forall j, j ∈ ks -> test j = test' j) ->
  (forall j, j ∈ ks -> test j = true -> pick j = pick' j) ->
  fold_left (scan test pick) ks acc = fold_left (scan test' pick') ks acc.
Proof.
  revert acc. induction ks as [|k ks IH]; intros acc Ht Hp; simpl; [done|].
  rewrite IH.
  - f_equal. unfold scan. rewrite <- (Ht k) by left.
    destruct (test k) eqn:E; [apply Hp; [left | done] | done].
  - intros j Hj. apply Ht. by right.
  - intros j Hj. apply Hp. by right.
Qed.

End Scan.

Lemma string_app_assoc (s1 s2 s3 : string) : (s1 +:+ s2) +:+ s3 = s1 +:+ s2 +:+ s3.
Proof. induction s1 as [|c s1 IH]; [done|]. change (String c ((s1 +:+ s2) +:+ s3) = String c (s1 +:+ s2 +:+ s3)). by rewrite IH. Qed.

Lemma string_app_nil_r (s : string) : s +:+ "" = s.
Proof. induction s as [|c s IH]; [done|]. change (String c (s +:+ "") = String c s). by rewrite IH. Qed.

(** ** Thresholds in strictly ascending order *)

Lemma ascending_lt ts i j a b :
  ascending ts -> i < j -> ts !! i = Some a -> ts !! j = Some b -> Num.lt a b = true.
Proof.
  intros Hasc. revert b. induction j as [|j IH]; intros b Hij Ha Hb; [lia|].
  destruct (decide (i = j)) as [->|Hne]; [by eapply Hasc|].
  destruct (lookup_lt_is_Some_2 ts j) as [c Hc].
  { apply lookup_lt_Some in Hb. lia. }
  eapply NumFacts.lt_trans; [apply IH; [lia | done | exact Hc] | by eapply Hasc].
Qed.

Module NumericFacts.
Import Numeric.

Lemma numeric_scan cs value :
  color_from_value cs value
  = fold_left (scan (fun ii => js_ge value (index_num (limits cs) ii))
                    (fun ii => colors cs !! ii))
      (seq 0 (length (colors cs))) (Some (na_color cs)).
Proof. reflexivity. Qed.

(** The colour of index [i] is returned when the value reaches threshold
    [i] and no later threshold. *)
Lemma numeric_last cs value i ti c :
  limits cs !! i = Some ti -> colors cs !! i = Some c ->
  Num.ge (ToNumber value) ti = true ->
  (forall j tj, i < j -> limits cs !! j = Some tj -> Num.ge (ToNumber value) tj = false) ->
  color_from_value cs value = Some c.
Proof.
  intros Hti Hc Hge Hlater. rewrite numeric_scan.
  rewrite (scan_last_hit _ _ _ i); [done | | |].
  - by eapply lookup_lt_Some.
  - unfold index_num. by rewrite Hti.
  - intros j [Hj _]. unfold index_num, js_ge.
    destruct (limits cs !! j) as [tj|] eqn:E; simpl.
    + by eapply Hlater.
    + apply NumFacts.ge_NaN_r.
Qed.

Lemma numeric_none cs value :
  (forall j tj, limits cs !! j = Some tj -> Num.ge (ToNumber value) tj = false) ->
  color_from_value cs value = Some (na_color cs).
Proof.
  intros Hall. rewrite numeric_scan. apply scan_no_hit.
  intros j _. unfold index_num, js_ge.
  destruct (limits cs !! j) as [tj|] eqn:E; simpl.
  - by eapply Hall.
  - apply NumFacts.ge_NaN_r.
Qed.

End NumericFacts.

(** C2. Numeric scheme, thresholds [t_0 < ... < t_(n-1)] and as many
    colours: a value below [t_0] gets [na_color]; a value with
    [t_i <= value < t_(i+1)] gets [colors[i]]; a value with
    [value >= t_(n-1)] gets [colors[n-1]]; a value equal to a threshold
    gets the colour of that threshold (the higher bucket). *)
Theorem color_from_value_numeric_buckets (cs : ColorSchemeNumeric) (value : jsval) :
  ascending (limits cs) ->
  length (colors cs) = length (limits cs) ->
  (forall t0, limits cs !! 0 = Some t0 -> Num.lt (ToNumber value) t0 = true ->
     Numeric.color_from_value cs value = Some (na_color cs))
  /\ (forall i ti ti1, limits cs !! i = Some ti -> limits cs !! S i = Some ti1 ->
        Num.le ti (ToNumber value) = true -> Num.lt (ToNumber value) ti1 = true ->
        exists c, colors cs !! i = Some c /\ Numeric.color_from_value cs value = Some c)
  /\ (forall i ti, S i = length (limits cs) -> limits cs !! i = Some ti ->
        Num.ge (ToNumber value) ti = true ->
        exists c, colors cs !! i = Some c /\ Numeric.color_from_value cs value = Some c)
  /\ (forall i ti, limits cs !! i = Some ti -> ToNumber value = ti ->
        Num.is_NaN ti = false ->
        exists c, colors cs !! i = Some c /\ Numeric.color_from_value cs value = Some c).
Proof.
  intros Hasc Hlen.
  assert (Hcol : forall i ti, limits cs !! i = Some ti -> exists c, colors cs !! i = Some c).
  { intros i ti Hi. apply lookup_lt_is_Some_2. rewrite Hlen. by eapply lookup_lt_Some. }
  assert (Hbelow : forall i ti, limits cs !! i = Some ti ->
            Num.lt (ToNumber value) ti = true ->
            forall j tj, i <= j -> limits cs !! j = Some tj ->
            Num.ge (ToNumber value) tj = false).
  { intros i ti Hi Hlt j tj Hij Hj. apply NumFacts.lt_ge_false.
    destruct (decide (i = j)) as [->|Hne]; [congruence|].
    eapply NumFacts.lt_trans; [exact Hlt|].
    eapply ascending_lt; [exact Hasc | | exact Hi | exact Hj]. lia. }
  assert (Hmid : forall i ti ti1, limits cs !! i = Some ti -> limits cs !! S i = Some ti1 ->
            Num.le ti (ToNumber value) = true -> Num.lt (ToNumber value) ti1 = true ->
            exists c, colors cs !! i = Some c /\ Numeric.color_from_value cs value = Some c).
  { intros i ti ti1 Hi Hi1 Hle Hlt. destruct (Hcol i ti Hi) as [c Hc].
    exists c. split; [done|].
    apply (NumericFacts.numeric_last cs value i ti c); [done | done | done |].
    intros j tj Hij Hj. apply (Hbelow (S i) ti1 Hi1 Hlt j tj); [lia | exact Hj]. }
  assert (Hlast : forall i ti, S i = length (limits cs) -> limits cs !! i = Some ti ->
            Num.ge (ToNumber value) ti = true ->
            exists c, colors cs !! i = Some c /\ Numeric.color_from_value cs value = Some c).
  { intros i ti Hn Hi Hge. destruct (Hcol i ti Hi) as [c Hc].
    exists c. split; [done|].
    apply (NumericFacts.numeric_last cs value i ti c); [done | done | done |].
    intros j tj Hij Hj. apply lookup_lt_Some in Hj. exfalso. lia. }
  split; [|split; [|split]]; [ | exact Hmid | exact Hlast | ].
  - intros t0 H0 Hlt. apply NumericFacts.numeric_none.
    intros j tj Hj. apply (Hbelow 0 t0 H0 Hlt j tj); [lia | exact Hj].
  - intros i ti Hi Hv Hnan.
    destruct (decide (S i = length (limits cs))) as [Hn|Hn].
    + apply (Hlast i ti Hn Hi). rewrite Hv. by apply NumFacts.ge_refl.
    + destruct (lookup_lt_is_Some_2 (limits cs) (S i)) as [ti1 Hi1].
      { apply lookup_lt_Some in Hi. lia. }
      apply (Hmid i ti ti1 Hi Hi1).
      * rewrite NumFacts.le_ge, Hv. by apply NumFacts.ge_refl.
      * rewrite Hv. by eapply Hasc.
Qed.

(** The configured travel-time scheme meets the hypotheses of C2, and a
    boundary value falls in the higher bucket. *)
Lemma color_from_value_numeric_buckets_witness :
  ascending (limits ttColorScheme)
  /\ length (colors ttColorScheme) = length (limits ttColorScheme)
  /\ Numeric.color_from_value ttColorScheme (VNum (Num.of_Z 5)) = Some "#5aabac".
Proof.
  assert (Hasc : ascending (limits ttColorScheme)).
  { intros i a b Ha Hb.
    do 7 (destruct i as [|i]; [vm_compute in Ha, Hb; simplify_eq; reflexivity|]).
    vm_compute in Ha. discriminate. }
  split; [exact Hasc|]. split; [reflexivity|].
  destruct (color_from_value_numeric_buckets ttColorScheme (VNum (Num.of_Z 5))
              Hasc eq_refl) as (_ & _ & _ & Htie).
  destruct (Htie 1 (Num.of_Z 5) eq_refl eq_refl eq_refl) as (c & Hc & ->).
  vm_compute in Hc. symmetry. exact Hc.
Defined.

Module CategoricalFacts.
Import Categorical.

Lemma categorical_scan cs value :
  color_from_value cs value
  = fold_left (scan (fun ii => loose_eq value (limits cs !! ii))
                    (fun ii => colors cs !! ii))
      (seq 0 (length (colors cs))) (Some (na_color cs)).
Proof. reflexivity. Qed.

Lemma loose_eq_true value key : loose_eq value key = true <-> value = key.
Proof. unfold loose_eq. apply bool_decide_eq_true. Qed.

Lemma loose_eq_false value key : loose_eq value key = false <-> value <> key.
Proof. unfold loose_eq. apply bool_decide_eq_false. Qed.

End CategoricalFacts.

(** C6. Categorical scheme with as many keys as colours: the colour of the
    last key equal to the value is returned, and [na_color] when no key
    equals the value. *)
Theorem color_from_value_categorical_last_match (cs : ColorSchemeCategorical) :
  length (limits cs) = length (colors cs) ->
  (forall i k, limits cs !! i = Some k ->
     (forall j k', i < j -> limits cs !! j = Some k' -> k' <> k) ->
     exists c, colors cs !! i = Some c
               /\ Categorical.color_from_value cs (Some k) = Some c)
  /\ (forall value, (forall k', k' ∈ limits cs -> value <> Some k') ->
        Categorical.color_from_value cs value = Some (na_color cs)).
Proof.
  intros Hlen. split.
  - intros i k Hi Hlater.
    destruct (lookup_lt_is_Some_2 (colors cs) i) as [c Hc].
    { rewrite <- Hlen. by eapply lookup_lt_Some. }
    exists c. split; [done|].
    rewrite CategoricalFacts.categorical_scan.
    rewrite (scan_last_hit _ _ _ i); [done | | |].
    + by eapply lookup_lt_Some.
    + apply CategoricalFacts.loose_eq_true. by rewrite Hi.
    + intros j [Hij Hj]. apply CategoricalFacts.loose_eq_false.
      destruct (lookup_lt_is_Some_2 (limits cs) j) as [k' Hk']; [lia|].
      rewrite Hk'. intros [= ->]. by eapply Hlater.
  - intros value Hnone.
    rewrite CategoricalFacts.categorical_scan. apply scan_no_hit.
    intros j Hj. apply elem_of_seq in Hj.
    apply CategoricalFacts.loose_eq_false.
    destruct (lookup_lt_is_Some_2 (limits cs) j) as [k' Hk']; [lia|].
    rewrite Hk'. apply Hnone. by eapply list_elem_of_lookup_2.
Qed.

(** A scheme with a repeated key: the later entry wins. *)
Lemma color_from_value_categorical_last_match_witness :
  let cs : ColorSchemeCategorical :=
    constructor ["res"; "com"; "res"] ["#a00"; "#0a0"; "#00a"] ["R1"; "C"; "R2"] None in
  length (limits cs) = length (colors cs)
  /\ Categorical.color_from_value cs (Some "res") = Some "#00a"
  /\ Categorical.color_from_value cs (Some "park") = Some "#888".
Proof.
  intros cs.
  destruct (color_from_value_categorical_last_match cs eq_refl) as [Hhit Hmiss].
  split; [reflexivity|]. split.
  - destruct (Hhit 2 "res" eq_refl) as (c & Hc & ->).
    + intros j k' Hj Hk'. apply lookup_lt_Some in Hk'. simpl in Hk'. lia.
    + vm_compute in Hc. symmetry. exact Hc.
  - apply Hmiss. intros k' Hk'.
    repeat (apply elem_of_cons in Hk' as [->|Hk']; [discriminate|]).
    by apply elem_of_nil in Hk'.
Defined.

(** C5 (as the code has it). The constructor checks nothing: sequences of
    any lengths are stored as they are, and the numeric [color_from_value]
    of the result only ever consults the first [m] thresholds and colours,
    where [m] is the shorter of the two lengths. *)
Theorem constructor_accepts_any_lengths
    (limits_asc : list number) (colors0 labels0 : list string)
    (na : option string) (value : jsval) :
  let cs := constructor limits_asc colors0 labels0 na in
  let m := length limits_asc `min` length colors0 in
  limits cs = limits_asc /\ colors cs = colors0 /\ labels cs = labels0
  /\ Numeric.color_from_value cs value
     = Numeric.color_from_value
         (constructor (take m limits_asc) (take m colors0) labels0 na) value.
Proof.
  intros cs m. repeat split.
  rewrite !NumericFacts.numeric_scan. simpl.
  rewrite length_take.
  replace (length colors0) with (m + (length colors0 - m)) at 1 by lia.
  replace (m `min` length colors0) with m by lia.
  rewrite seq_app, fold_left_app.
  rewrite (scan_no_hit _ _ (seq (0 + m) _)).
  - apply scan_ext.
    + intros j Hj. apply elem_of_seq in Hj. unfold index_num.
      rewrite lookup_take_lt by lia. done.
    + intros j Hj _. apply elem_of_seq in Hj.
      rewrite lookup_take_lt by lia. done.
  - intros j Hj. apply elem_of_seq in Hj. unfold index_num, js_ge.
    rewrite (lookup_ge_None_2 limits_asc j) by lia. apply NumFacts.ge_NaN_r.
Qed.

(** C5, as stated, fails: three thresholds with one colour and no label are
    accepted, and the scheme is then used with thresholds 5 and 10 ignored. *)
Lemma constructor_mismatch_not_rejected :
  let cs : ColorSchemeNumeric :=
    constructor (map Num.of_Z [0; 5; 10]%Z) ["#111"] [] None in
  length (limits cs) = 3 /\ length (colors cs) = 1 /\ length (labels cs) = 0
  /\ Numeric.color_from_value cs (VNum (Num.of_Z 7)) = Some "#111"
  /\ Numeric.color_from_value cs (VNum (Num.of_Z 12)) = Some "#111"
  /\ legend_html cs = "".
Proof. vm_compute. repeat split. Qed.

(** ** The legend *)

Section Legend.
Context {K : Type} (cs : ColorScheme K).

Local Abbreviation entry := (entry_at cs).

Lemma joined_cons2 sep x y l :
  joined sep (x :: y :: l) = x +:+ sep +:+ joined sep (y :: l).
Proof. reflexivity. Qed.

Lemma legend_loop k : forall a acc,
  a + k = length (labels cs) ->
  fold_left (legend_step cs) (seq a k) acc
  = acc +:+ joined "<br/>" (map entry (seq a k)).
Proof.
  induction k as [|k IH]; intros a acc Hn.
  - simpl. by rewrite string_app_nil_r.
  - change (seq a (S k)) with (a :: seq (S a) k).
    change (fold_left (legend_step cs) (a :: seq (S a) k) acc)
      with (fold_left (legend_step cs) (seq (S a) k) (legend_step cs acc a)).
    rewrite IH by lia. unfold legend_step.
    change (legend_entry (colors cs !! a) (labels cs !! a)) with (entry a).
    destruct k as [|k].
    + rewrite (proj2 (Z.ltb_ge _ _)) by lia.
      change (joined "<br/>" (map entry (seq (S a) 0))) with "".
      by rewrite string_app_nil_r.
    + rewrite (proj2 (Z.ltb_lt _ _)) by lia.
      change (map entry (a :: seq (S a) (S k)))
        with (entry a :: entry (S a) :: map entry (seq (S (S a)) k)).
      rewrite joined_cons2.
      change (map entry (seq (S a) (S k)))
        with (entry (S a) :: map entry (seq (S (S a)) k)).
      by rewrite !string_app_assoc.
Qed.

End Legend.

Lemma legend_entries_zip (colors0 labels0 : list string) :
  length colors0 = length labels0 ->
  map (fun ii => legend_entry (colors0 !! ii) (labels0 !! ii)) (seq 0 (length labels0))
  = zip_with (fun c l => legend_entry (Some c) (Some l)) colors0 labels0.
Proof.
  revert labels0. induction colors0 as [|c colors0 IH]; intros [|l labels0] Hlen;
    simplify_eq/=; [done|].
  f_equal. rewrite <- IH by done.
  rewrite <- seq_shift, map_map. done.
Qed.

(** C8. [legend_html] is the sequence of the entries, one per label and in
    the order of construction, joined by the separator ["<br/>"]: one
    between every two neighbours, none after the last.  The entry of a
    colour and a label is a [<b>] element with that colour as background,
    a space and the label; with as many colours as labels the entries are
    those of the (colour, label) pairs, and a legend of one entry is that
    entry alone.  A colour missing for a label prints as "undefined". *)
Theorem legend_html_entries_in_order {K : Type} (cs : ColorScheme K) :
  let markup (color label : string) : string :=
    "<b style=" +:+ String "034"%char "" +:+ "background:" +:+ color
      +:+ String "034"%char "" +:+ "></b> " +:+ label in
  legend_html cs
  = String.concat "<br/>"
      (map (fun ii => markup (default "undefined" (colors cs !! ii))
                             (default "undefined" (labels cs !! ii)))
           (seq 0 (length (labels cs))))
  /\ (length (colors cs) = length (labels cs) ->
      legend_html cs
      = String.concat "<br/>" (zip_with markup (colors cs) (labels cs)))
  /\ (forall c l, colors cs = [c] -> labels cs = [l] -> legend_html cs = markup c l).
Proof.
  intros markup.
  assert (H : legend_html cs
              = joined "<br/>"
                  (map (fun ii => legend_entry (colors cs !! ii) (labels cs !! ii))
                       (seq 0 (length (labels cs))))).
  { unfold legend_html, keys_of_Array. by rewrite legend_loop. }
  split; [exact H|]. split.
  - intros Hlen. rewrite H, legend_entries_zip by done. reflexivity.
  - intros c l Hc Hl. rewrite H, Hc, Hl. reflexivity.
Qed.

(** Two entries: the markup in full, with one separator. *)
Lemma legend_html_entries_in_order_witness :
  let cs : ColorScheme number :=
    constructor [] ["#0868ac"; "#999999"] ["Under 5 min"; "Over 30 min"] None in
  let q := String "034"%char "" in
  length (colors cs) = length (labels cs)
  /\ legend_html cs
     = "<b style=" +:+ q +:+ "background:#0868ac" +:+ q +:+ "></b> Under 5 min"
       +:+ "<br/>"
       +:+ "<b style=" +:+ q +:+ "background:#999999" +:+ q +:+ "></b> Over 30 min".
Proof.
  intros cs q. split; [reflexivity|].
  destruct (legend_html_entries_in_order cs) as (_ & Hzip & _).
  rewrite (Hzip eq_refl). reflexivity.
Defined.

(** ** Running the travel-time update on the heap *)

Section Run.
Context (L : list Layer) (D : list string) (layer : nat) (id : Z) (g : Geometry).
Hypothesis layer_valid : layer < length L.

Local Abbreviation at_props := (heap_at L D layer id g).

Lemma get_property_run P key :
  get_property layer key (at_props P) = (Normal (js_get P key), at_props P).
Proof.
  unfold get_property, at_props. simpl.
  by rewrite list_lookup_insert_eq.
Qed.

Lemma set_property_run P key v :
  set_property layer key v (at_props P) = (Normal (), at_props (<[key := v]> P)).
Proof.
  unfold set_property, at_props, set_field. simpl.
  rewrite list_lookup_insert_eq by done. simpl.
  by rewrite list_insert_insert_eq.
Qed.

Lemma has_feature_run P :
  has_feature layer (at_props P) = (Normal true, at_props P).
Proof.
  unfold has_feature, at_props. simpl.
  by rewrite list_lookup_insert_eq.
Qed.

Lemma callback_run Q t destination :
  (t' ← get_property layer "tt";
   v ← get_property layer destination;
   set_property layer "tt" (VNum (Math_max t' v))) (at_props (<["tt" := VNum t]> Q))
  = (Normal (),
     at_props (<["tt" := VNum (Num.max t (ToNumber (js_get (<["tt" := VNum t]> Q)
                                                      destination)))]> Q)).
Proof.
  unfold mbind, M_bind.
  rewrite !get_property_run, set_property_run.
  unfold js_get at 1. rewrite lookup_insert_eq. simpl.
  by rewrite insert_insert_eq.
Qed.

Lemma forEach_loop_run callback n : forall k Q t,
  (forall Q t d, callback d (at_props (<["tt" := VNum t]> Q))
     = (Normal (),
        at_props (<["tt" := VNum (Num.max t (ToNumber (js_get (<["tt" := VNum t]> Q) d)))]> Q))) ->
  k + n = length D ->
  for_each_index (seq k n) (fun k =>
      d ← destinations_at k;
      match d with
      | Some destination => callback destination
      | None => mret ()
      end) (at_props (<["tt" := VNum t]> Q))
  = (Normal (), at_props (<["tt" := VNum (running Q (drop k D) t)]> Q)).
Proof.
  intros k Q t Hcb. revert k t. induction n as [|n IH]; intros k t Hk.
  - rewrite drop_ge by lia. done.
  - destruct (lookup_lt_is_Some_2 D k) as [d Hd]; [lia|].
    rewrite (drop_S D d k Hd).
    simpl. unfold mbind at 1, M_bind at 1.
    unfold mbind at 1, M_bind at 1, destinations_at at 1.
    cbn [h_destinations at_props]. rewrite Hd, Hcb.
    by rewrite IH by lia.
Qed.

Lemma update_travel_times_run P :
  update_travel_times layer (at_props P)
  = (Normal layer, at_props (<["tt" := VNum (final_tt P D)]> P)).
Proof.
  unfold update_travel_times.
  unfold mbind at 1, M_bind at 1. rewrite has_feature_run.
  unfold mbind at 1, M_bind at 1.
  unfold mbind at 1, M_bind at 1, destinations_length at 1.
  cbn [h_destinations at_props].
  assert (Hcases : D = [] \/ D <> []) by (destruct D; [left | right]; done).
  destruct Hcases as [HD|HD].
  - replace (length D =? 0)%nat with true by (by rewrite HD).
    replace (final_tt P D) with (Num.of_Z 999) by (by rewrite HD).
    by rewrite set_property_run.
  - replace (length D =? 0)%nat with false by (by destruct D).
    replace (final_tt P D) with (running P D (Num.of_Z 0)) by (by destruct D).
    unfold mbind at 1, M_bind at 1. rewrite set_property_run.
    unfold forEach.
    unfold mbind at 1, M_bind at 1, destinations_length at 1.
    cbn [h_destinations at_props].
    rewrite (forEach_loop_run _ (length D) 0).
    + done.
    + intros Q t d. apply callback_run.
    + done.
Qed.

End Run.

Lemma heap_eta (h : heap) : h = {| h_layers := h_layers h; h_destinations := h_destinations h |}.
Proof. by destruct h. Qed.

(** One call, on any layer of the heap: the layer is replaced by
    [recompute] of itself and nothing else changes. *)
Lemma update_travel_times_spec (h : heap) (layer : nat) (l : Layer) :
  h_layers h !! layer = Some l ->
  update_travel_times layer h
  = (Normal layer,
     {| h_layers := <[layer := recompute (h_destinations h) l]> (h_layers h);
        h_destinations := h_destinations h |}).
Proof.
  intros Hl. destruct h as [L D]. simpl in *.
  pose proof (lookup_lt_Some _ _ _ Hl) as Hlt.
  destruct l as [id [[g P]|]]; unfold recompute; simpl.
  - pose proof (update_travel_times_run L D layer id g Hlt P) as Hrun.
    unfold heap_at in Hrun. by rewrite (list_insert_id L layer _ Hl) in Hrun at 1.
  - rewrite (list_insert_id L layer _ Hl).
    unfold update_travel_times, mbind, M_bind, has_feature. simpl.
    by rewrite Hl.
Qed.

(** *** The value left in ["tt"] *)

Lemma running_cons P d ds t :
  running P (d :: ds) t
  = running P ds (Num.max t (ToNumber (js_get (<["tt" := VNum t]> P) d))).
Proof. reflexivity. Qed.

Lemma js_get_insert_ne (P : gmap string jsval) k k' v :
  k <> k' -> js_get (<[k := v]> P) k' = js_get P k'.
Proof. intros Hne. unfold js_get. by rewrite lookup_insert_ne. Qed.

Lemma js_get_insert_eq (P : gmap string jsval) k v : js_get (<[k := v]> P) k = v.
Proof. unfold js_get. by rewrite lookup_insert_eq. Qed.

Lemma running_insert_tt v P ds t :
  running (<["tt" := v]> P) ds t = running P ds t.
Proof.
  revert t. induction ds as [|d ds IH]; intros t; [done|].
  by rewrite !running_cons, insert_insert_eq, IH.
Qed.

Lemma final_tt_insert_tt v P ds : final_tt (<["tt" := v]> P) ds = final_tt P ds.
Proof. destruct ds; [done|]. apply running_insert_tt. Qed.

Lemma running_NaN P ds : running P ds NaN = NaN.
Proof. induction ds as [|d ds IH]; [done|]. by rewrite running_cons. Qed.

Lemma running_missing P ds t d :
  d ∈ ds -> d <> "tt" -> P !! d = None -> running P ds t = NaN.
Proof.
  intros Hd Hne Hnone. revert t.
  induction ds as [|d' ds IH]; intros t; [by apply elem_of_nil in Hd|].
  rewrite running_cons.
  apply elem_of_cons in Hd as [<-|Hd]; [|by apply IH].
  rewrite js_get_insert_ne by done. unfold js_get. rewrite Hnone. simpl.
  rewrite NumFacts.max_NaN_r. apply running_NaN.
Qed.


Lemma recompute_idempotent dests l :
  recompute dests (recompute dests l) = recompute dests l.
Proof.
  destruct l as [id [[g P]|]]; unfold recompute, set_field; simpl; [|done].
  by rewrite final_tt_insert_tt, insert_insert_eq.
Qed.

Lemma fold_max_bounds xs : forall t,
  Num.is_NaN t = false ->
  (forall x, x ∈ xs -> Num.is_NaN x = false) ->
  let r := fold_left Num.max xs t in
  (r = t \/ r ∈ xs) /\ Num.le t r = true /\ (forall x, x ∈ xs -> Num.le x r = true).
Proof.
  induction xs as [|x xs IH]; intros t Ht Hxs; simpl.
  - split; [by left|]. split; [by apply NumFacts.ge_refl|].
    intros x Hx. by apply elem_of_nil in Hx.
  - assert (Hx : Num.is_NaN x = false) by (apply Hxs; left).
    assert (Hxs' : forall y, y ∈ xs -> Num.is_NaN y = false)
      by (intros y Hy; apply Hxs; by right).
    assert (Hstep : Num.is_NaN (Num.max t x) = false
                    /\ (Num.max t x = t \/ Num.max t x = x)
                    /\ Num.le t (Num.max t x) = true
                    /\ Num.le x (Num.max t x) = true).
    { destruct (NumFacts.max_cases t x Ht Hx) as [[-> Hge]|[-> Hge]];
        rewrite ?NumFacts.le_ge; auto using NumFacts.ge_refl. }
    destruct Hstep as (Hnan & Hsel & Hle_t & Hle_x).
    destruct (IH (Num.max t x) Hnan Hxs') as (Hin & Hle & Hall).
    split; [|split].
    + destruct Hin as [->|Hin]; [|right; by right].
      destruct Hsel as [->| ->]; [by left | right; left].
    + rewrite NumFacts.le_ge in *. by eapply NumFacts.ge_trans.
    + intros y Hy. apply elem_of_cons in Hy as [->|Hy]; [|by apply Hall].
      rewrite NumFacts.le_ge in *. by eapply NumFacts.ge_trans.
Qed.


Lemma tt_of_update (h : heap) (layer : nat) (l : Layer) (f : Feature) :
  h_layers h !! layer = Some l -> feature l = Some f ->
  exists h', update_travel_times layer h = (Normal layer, h')
    /\ tt_of h' layer = Some (VNum (final_tt (properties f) (h_destinations h))).
Proof.
  intros Hl Hf. eexists. split; [by apply update_travel_times_spec|].
  unfold tt_of. simpl.
  rewrite list_lookup_insert_eq by (by eapply lookup_lt_Some). simpl.
  unfold recompute. rewrite Hf. simpl. by rewrite js_get_insert_eq.
Qed.

(** ** The claims about [update_travel_times] *)


(** Scenario 2 of the specification: groceries 4, parks 12, cafes 2, with
    groceries and parks selected, gives 12. *)
Example scenario2 :
  tt_of (snd (update_travel_times 0 (block_heap ["groceries"; "parks"]))) 0
  = Some (VNum (Num.of_Z 12)).
Proof. vm_compute. reflexivity. Qed.


(** C3 (as the code has it). With nothing selected the call leaves 999 in
    ["tt"], and [tt_style] then gives the colour of the last threshold
    bucket, "#999999" ("Over 30 min"): 999 is above every threshold. *)
Theorem sentinel_renders_last_bucket (h : heap) (layer : nat) (l : Layer) (f : Feature) :
  h_layers h !! layer = Some l -> feature l = Some f ->
  h_destinations h = [] ->
  exists h' l' f',
    update_travel_times layer h = (Normal layer, h')
    /\ h_layers h' !! layer = Some l' /\ feature l' = Some f'
    /\ js_get (properties f') "tt" = VNum (Num.of_Z 999)
    /\ tt_style f' = Some "#999999"
    /\ colors ttColorScheme !! 6 = Some "#999999"
    /\ labels ttColorScheme !! 6 = Some "Over 30 min".
Proof.
  intros Hl Hf HD.
  exists {| h_layers := <[layer := recompute (h_destinations h) l]> (h_layers h);
            h_destinations := h_destinations h |},
         (recompute (h_destinations h) l),
         (set_field f "tt" (VNum (final_tt (properties f) (h_destinations h)))).
  split; [by apply update_travel_times_spec|].
  split; [simpl; apply list_lookup_insert_eq; by eapply lookup_lt_Some|].
  split; [unfold recompute; by rewrite Hf|].
  rewrite HD. unfold tt_style. simpl. rewrite js_get_insert_eq.
  repeat split.
Qed.

Lemma sentinel_renders_last_bucket_witness :
  exists h' l' f',
    update_travel_times 0 (block_heap []) = (Normal 0, h')
    /\ h_layers h' !! 0 = Some l' /\ feature l' = Some f'
    /\ js_get (properties f') "tt" = VNum (Num.of_Z 999)
    /\ tt_style f' = Some "#999999"
    /\ colors ttColorScheme !! 6 = Some "#999999"
    /\ labels ttColorScheme !! 6 = Some "Over 30 min".
Proof.
  exact (sentinel_renders_last_bucket (block_heap []) 0
           {| leaflet_id := 41; feature := Some block_feature |} block_feature
           eq_refl eq_refl eq_refl).
Defined.

(** C3, as stated, fails: the sentinel 999 is not rendered in [na_color]. *)
Lemma sentinel_not_fallback :
  tt_of (snd (update_travel_times 0 (block_heap []))) 0 = Some (VNum (Num.of_Z 999))
  /\ Numeric.color_from_value ttColorScheme (VNum (Num.of_Z 999)) = Some "#999999"
  /\ Numeric.color_from_value ttColorScheme (VNum (Num.of_Z 999))
     <> Some (na_color ttColorScheme).
Proof. vm_compute. repeat split. discriminate. Qed.

(** C4 (as the code has it). When a selected destination has no entry in
    the feature, the call still completes: nothing is thrown, no default
    stands in for the missing travel time, and ["tt"] is left [NaN], which
    [tt_style] renders in [na_color]. *)
Theorem missing_value_gives_NaN (h : heap) (layer : nat) (l : Layer) (f : Feature)
    (d : string) :
  h_layers h !! layer = Some l -> feature l = Some f ->
  d ∈ h_destinations h -> d <> "tt" -> properties f !! d = None ->
  exists h', update_travel_times layer h = (Normal layer, h')
    /\ tt_of h' layer = Some (VNum NaN)
    /\ Numeric.color_from_value ttColorScheme (VNum NaN) = Some (na_color ttColorScheme).
Proof.
  intros Hl Hf Hd Hne Hnone.
  destruct (tt_of_update h layer l f Hl Hf) as (h' & Hrun & Hres).
  exists h'. split; [done|]. split; [|reflexivity].
  rewrite Hres. do 2 f_equal.
  destruct (h_destinations h) as [|d0 ds] eqn:HD; [by apply elem_of_nil in Hd|].
  by apply (running_missing _ _ _ d).
Qed.

Lemma missing_value_gives_NaN_witness :
  exists h', update_travel_times 0 (block_heap ["groceries"; "libraries"]) = (Normal 0, h')
    /\ tt_of h' 0 = Some (VNum NaN)
    /\ Numeric.color_from_value ttColorScheme (VNum NaN) = Some (na_color ttColorScheme).
Proof.
  apply (missing_value_gives_NaN (block_heap ["groceries"; "libraries"]) 0
           {| leaflet_id := 41; feature := Some block_feature |} block_feature
           "libraries" eq_refl eq_refl).
  - simpl. right. left.
  - discriminate.
  - reflexivity.
Defined.

(** C4, as stated, fails: with "libraries" selected and no such entry in
    the feature the call returns normally. *)
Lemma missing_value_not_an_error :
  let h := block_heap ["groceries"; "libraries"] in
  properties block_feature !! "libraries" = None
  /\ fst (update_travel_times 0 h) = Normal 0
  /\ tt_of (snd (update_travel_times 0 h)) 0 = Some (VNum NaN).
Proof. vm_compute. repeat split. Qed.

(** C9. On a layer with a feature, the call writes the field ["tt"] of that
    feature's properties and nothing else: the array of destinations, all
    other layers, the layer's identity, the geometry and every other
    property are as before. *)
Theorem update_travel_times_frame (h : heap) (layer : nat) (l : Layer) (f : Feature) :
  h_layers h !! layer = Some l -> feature l = Some f ->
  exists h' l' f',
    update_travel_times layer h = (Normal layer, h')
    /\ h_destinations h' = h_destinations h
    /\ length (h_layers h') = length (h_layers h)
    /\ (forall j, j <> layer -> h_layers h' !! j = h_layers h !! j)
    /\ h_layers h' !! layer = Some l'
    /\ leaflet_id l' = leaflet_id l
    /\ feature l' = Some f'
    /\ geometry f' = geometry f
    /\ (forall key, key <> "tt" -> properties f' !! key = properties f !! key).
Proof.
  intros Hl Hf.
  exists {| h_layers := <[layer := recompute (h_destinations h) l]> (h_layers h);
            h_destinations := h_destinations h |},
         (recompute (h_destinations h) l),
         (set_field f "tt" (VNum (final_tt (properties f) (h_destinations h)))).
  split; [by apply update_travel_times_spec|].
  split; [done|].
  split; [simpl; apply length_insert|].
  split; [intros j Hj; simpl; by apply list_lookup_insert_ne|].
  split; [simpl; apply list_lookup_insert_eq; by eapply lookup_lt_Some|].
  unfold recompute. rewrite Hf. simpl.
  repeat split.
  intros key Hkey. by apply lookup_insert_ne.
Qed.

Lemma update_travel_times_frame_witness :
  exists h' l' f',
    update_travel_times 0 (block_heap ["parks"; "cafes"]) = (Normal 0, h')
    /\ h_destinations h' = ["parks"; "cafes"]
    /\ length (h_layers h') = 2
    /\ (forall j, j <> 0 ->
          h_layers h' !! j = h_layers (block_heap ["parks"; "cafes"]) !! j)
    /\ h_layers h' !! 0 = Some l'
    /\ leaflet_id l' = 41%Z
    /\ feature l' = Some f'
    /\ geometry f' = Polygon []
    /\ (forall key, key <> "tt" ->
          properties f' !! key = properties block_feature !! key).
Proof.
  exact (update_travel_times_frame (block_heap ["parks"; "cafes"]) 0
           {| leaflet_id := 41; feature := Some block_feature |} block_feature
           eq_refl eq_refl).
Defined.

(** C10. On a layer without a feature the call returns the layer and
    leaves the whole heap as it was, whatever is selected; nothing is
    thrown. *)
Theorem update_travel_times_no_feature (h : heap) (layer : nat) (l : Layer) :
  h_layers h !! layer = Some l -> feature l = None ->
  update_travel_times layer h = (Normal layer, h).
Proof.
  intros Hl Hf. rewrite (update_travel_times_spec h layer l Hl).
  unfold recompute. rewrite Hf.
  rewrite list_insert_id by done. by destruct h.
Qed.

Lemma update_travel_times_no_feature_witness :
  update_travel_times 1 (block_heap ["groceries"; "parks"])
  = (Normal 1, block_heap ["groceries"; "parks"])
  /\ update_travel_times 1 (block_heap []) = (Normal 1, block_heap []).
Proof.
  split.
  - exact (update_travel_times_no_feature (block_heap ["groceries"; "parks"]) 1
             {| leaflet_id := 42; feature := None |} eq_refl eq_refl).
  - exact (update_travel_times_no_feature (block_heap []) 1
             {| leaflet_id := 42; feature := None |} eq_refl eq_refl).
Defined.

(** ** The pass over all layers *)

Lemma eachLayer_loop (L : list Layer) (D : list string) n : forall k Lk,
  k + n = length L -> length Lk = length L ->
  (forall j, Lk !! j = if decide (j < k) then recompute D <$> L !! j else L !! j) ->
  for_each_index (seq k n) (fun layer => update_travel_times layer ;; mret ())
    {| h_layers := Lk; h_destinations := D |}
  = (Normal (), {| h_layers := recompute D <$> L; h_destinations := D |}).
Proof.
  induction n as [|n IH]; intros k Lk Hk Hlen Hinv.
  - simpl. unfold mret, M_ret. do 2 f_equal.
    apply list_eq. intros j. rewrite Hinv, list_lookup_fmap.
    case_decide; [done|].
    by rewrite (lookup_ge_None_2 L j) by lia.
  - destruct (lookup_lt_is_Some_2 L k) as [l Hl]; [lia|].
    assert (Hlk : Lk !! k = Some l).
    { rewrite Hinv. case_decide; [lia | done]. }
    simpl. unfold mbind at 1, M_bind at 1.
    unfold mbind at 1, M_bind at 1.
    rewrite (update_travel_times_spec _ k l) by done.
    unfold mret at 1, M_ret at 1. cbn [h_layers h_destinations].
    apply IH; [lia | by rewrite length_insert |].
    intros j. destruct (decide (j = k)) as [->|Hne].
    + rewrite list_lookup_insert_eq by lia.
      rewrite Hl. case_decide; [done | lia].
    + rewrite list_lookup_insert_ne by done. rewrite Hinv.
      repeat case_decide; try done; lia.
Qed.

Lemma recompute_all_spec (h : heap) :
  recompute_all h
  = (Normal (), {| h_layers := recompute (h_destinations h) <$> h_layers h;
                   h_destinations := h_destinations h |}).
Proof.
  unfold recompute_all, eachLayer. rewrite (heap_eta h) at 2.
  apply eachLayer_loop; [done | done |].
  intros j. case_decide; [lia | done].
Qed.

(** C7. Running the pass twice with the same selection: the second run
    completes and leaves the heap, and so every ["tt"], exactly as the
    first run left it. *)
Theorem recompute_all_idempotent (h : heap) :
  exists h1,
    recompute_all h = (Normal (), h1)
    /\ recompute_all h1 = (Normal (), h1)
    /\ (forall layer, tt_of (snd (recompute_all h1)) layer = tt_of h1 layer).
Proof.
  assert (Hidem : forall h0,
            recompute_all (snd (recompute_all h0)) = (Normal (), snd (recompute_all h0))).
  { intros h0. rewrite (recompute_all_spec h0). simpl.
    rewrite recompute_all_spec. simpl. do 2 f_equal.
    rewrite <- list_fmap_compose. apply list_fmap_ext.
    intros i l _. apply recompute_idempotent. }
  exists (snd (recompute_all h)).
  split; [by rewrite recompute_all_spec|].
  split; [apply Hidem|].
  intros layer. by rewrite Hidem.
Qed.


(** ** The scenarios of the specification, evaluated *)

Lemma push_loop_filter (checked : string -> bool) (keys acc : list string) :
  fold_left
    (fun checked_ids dest =>
       if checked dest then (checked_ids ++ [dest])%list else checked_ids) keys acc
  = (acc ++ filter (fun dest => checked dest = true) keys)%list.
Proof.
  revert acc. induction keys as [|k keys IH]; intros acc; simpl.
  - by rewrite app_nil_r.
  - rewrite IH, filter_cons. destruct (checked k) eqn:E.
    + rewrite decide_True by done. by rewrite <- app_assoc.
    + rewrite decide_False by done. done.
Qed.

Lemma get_map_terms_filter (checked : string -> bool) :
  get_map_terms checked = filter (fun dest => checked dest = true) all_destinations.
Proof. unfold get_map_terms. by rewrite push_loop_filter. Qed.


Example scenario1 :
  let c v := Numeric.color_from_value ttColorScheme (VNum v) in
  c (Num.of_Z 3) = Some "#0868ac" /\ c (Num.of_Z 5) = Some "#5aabac"
  /\ c (Fin (Q2Qc (299 # 10))) = Some "#b8432e" /\ c (Num.of_Z 35) = Some "#999999"
  /\ c (Num.of_Z (-1)) = Some "#888".
Proof. vm_compute. repeat split. Qed.

Example scenario_pass_twice :
  let h1 := snd (recompute_all (block_heap ["groceries"; "cafes"])) in
  tt_of h1 0 = Some (VNum (Num.of_Z 4))
  /\ tt_of h1 1 = None
  /\ recompute_all h1 = (Normal (), h1).
Proof. vm_compute. repeat split. Qed.


(** * Further properties of the colour schemes *)

Lemma scan_invariant {A : Type} (test : nat -> bool) (pick : nat -> A)
    (I : A -> Prop) ks acc :
  I acc -> (forall j, j ∈ ks -> test j = true -> I (pick j)) ->
  I (fold_left (scan test pick) ks acc).
Proof.
  revert acc. induction ks as [|k ks IH]; intros acc Hacc Hpick; simpl; [done|].
  apply IH.
  - unfold scan. destruct (test k) eqn:E; [apply Hpick; [left | done] | done].
  - intros j Hj. apply Hpick. by right.
Qed.

Lemma configured_color_step (colors0 : list string) (na : string) n j :
  j ∈ seq 0 n -> n = length colors0 ->
  exists c, colors0 !! j = Some c /\ (c = na \/ c ∈ colors0).
Proof.
  intros Hj ->. apply elem_of_seq in Hj.
  destruct (lookup_lt_is_Some_2 colors0 j) as [c Hc]; [lia|].
  exists c. split; [done|]. right. by eapply list_elem_of_lookup_2.
Qed.

(** X1. The numeric [color_from_value] never returns [undefined]: whatever the
    scheme (lengths equal or not, thresholds sorted or not) and whatever the
    value, the result is [na_color] or one of the configured colours. *)
Theorem numeric_color_is_configured (cs : ColorSchemeNumeric) (value : jsval) :
  exists c, Numeric.color_from_value cs value = Some c
            /\ (c = na_color cs \/ c ∈ colors cs).
Proof.
  rewrite NumericFacts.numeric_scan.
  apply (scan_invariant _ _
           (fun r => exists c, r = Some c /\ (c = na_color cs \/ c ∈ colors cs))).
  - exists (na_color cs). by split; [|left].
  - intros j Hj _.
    by apply (configured_color_step (colors cs) (na_color cs) (length (colors cs))).
Qed.

(** X2. The same for the categorical [color_from_value]. *)
Theorem categorical_color_is_configured (cs : ColorSchemeCategorical)
    (value : option string) :
  exists c, Categorical.color_from_value cs value = Some c
            /\ (c = na_color cs \/ c ∈ colors cs).
Proof.
  rewrite CategoricalFacts.categorical_scan.
  apply (scan_invariant _ _
           (fun r => exists c, r = Some c /\ (c = na_color cs \/ c ∈ colors cs))).
  - exists (na_color cs). by split; [|left].
  - intros j Hj _.
    by apply (configured_color_step (colors cs) (na_color cs) (length (colors cs))).
Qed.

(** X3. A value that is not a number ([undefined], as read from a missing
    attribute, or [NaN]) gets [na_color] from every numeric scheme. *)
Theorem numeric_color_of_NaN (cs : ColorSchemeNumeric) (value : jsval) :
  Num.is_NaN (ToNumber value) = true ->
  Numeric.color_from_value cs value = Some (na_color cs).
Proof.
  intros Hnan. apply NumericFacts.numeric_none. intros j tj _.
  destruct (ToNumber value); try discriminate. reflexivity.
Qed.

Lemma numeric_color_of_NaN_witness :
  Numeric.color_from_value ttColorScheme (js_get (properties block_feature) "libraries")
  = Some "#888".
Proof.
  exact (numeric_color_of_NaN ttColorScheme
           (js_get (properties block_feature) "libraries") eq_refl).
Defined.

(** X4. Thresholds in any order: the colour returned is that of the last index,
    in the order of the arrays, whose threshold the value reaches. *)
Theorem numeric_color_last_reached (cs : ColorSchemeNumeric) (value : jsval)
    (i : nat) (ti : number) (c : string) :
  limits cs !! i = Some ti -> colors cs !! i = Some c ->
  js_ge value (VNum ti) = true ->
  (forall j tj, i < j -> limits cs !! j = Some tj -> js_ge value (VNum tj) = false) ->
  Numeric.color_from_value cs value = Some c.
Proof.
  intros Hti Hc Hge Hlater. rewrite NumericFacts.numeric_scan.
  rewrite (scan_last_hit _ _ _ i); [done | by eapply lookup_lt_Some | |].
  - unfold index_num. by rewrite Hti.
  - intros j [Hj _]. unfold index_num.
    destruct (limits cs !! j) as [tj|] eqn:E; [by eapply Hlater|].
    apply NumFacts.ge_NaN_r.
Qed.

(** Thresholds 10, 0, 5: the value 12 reaches all three and gets the colour
    of the last one, not that of 10. *)
Lemma numeric_color_last_reached_witness :
  Numeric.color_from_value
    (constructor (map Num.of_Z [10; 0; 5]%Z) ["#a"; "#b"; "#c"] ["x"; "y"; "z"] None)
    (VNum (Num.of_Z 12))
  = Some "#c".
Proof.
  apply (numeric_color_last_reached _ _ 2 (Num.of_Z 5)); [done | done | done |].
  intros j tj Hj Htj. apply lookup_lt_Some in Htj. simpl in Htj. lia.
Defined.

(** X5. The categorical scheme on [undefined]: with more colours than keys the
    missing keys read [undefined] and match, so the last colour is returned;
    otherwise nothing matches and [na_color] is returned. *)
Theorem categorical_color_of_undefined (cs : ColorSchemeCategorical) :
  Categorical.color_from_value cs None
  = if decide (length (limits cs) < length (colors cs))
    then colors cs !! (length (colors cs) - 1)
    else Some (na_color cs).
Proof.
  rewrite CategoricalFacts.categorical_scan. case_decide as Hlen.
  - rewrite (scan_last_hit _ _ _ (length (colors cs) - 1));
      [done | lia | | intros j Hj; lia].
    apply CategoricalFacts.loose_eq_true. symmetry.
    apply lookup_ge_None_2. lia.
  - apply scan_no_hit. intros j Hj. apply elem_of_seq in Hj.
    apply CategoricalFacts.loose_eq_false.
    destruct (lookup_lt_is_Some_2 (limits cs) j) as [k Hk]; [lia|].
    by rewrite Hk.
Qed.

(** X6. The legend reads one colour per label and nothing else: thresholds,
    [na_color] and colours beyond the number of labels play no part. *)
Theorem legend_html_reads_labels_and_colors {K K' : Type}
    (cs : ColorScheme K) (limits' : list K') (na' : string) :
  legend_html cs
  = legend_html {| limits := limits';
                   colors := take (length (labels cs)) (colors cs);
                   labels := labels cs;
                   na_color := na' |}.
Proof.
  unfold legend_html, keys_of_Array. rewrite !legend_loop by done. simpl.
  do 2 f_equal. apply map_ext_in. intros ii Hii.
  apply in_seq in Hii. unfold entry_at. simpl.
  by rewrite lookup_take_lt by lia.
Qed.

Lemma ge_lt_trans v a b :
  Num.ge v b = true -> Num.lt a b = true -> Num.ge v a = true.
Proof. intros; NumFacts.num_order. Qed.

Lemma filter_none {A : Type} (P : A -> Prop) `{!forall x, Decision (P x)} (l : list A) :
  (forall x, x ∈ l -> ~ P x) -> filter P l = [].
Proof.
  induction l as [|x l IH]; intros Hno; [done|].
  rewrite filter_cons_False by (apply Hno; left).
  apply IH. intros y Hy. apply Hno. by right.
Qed.

Lemma filter_length_mono {A : Type} (P Q : A -> Prop)
    `{!forall x, Decision (P x)} `{!forall x, Decision (Q x)} (l : list A) :
  (forall x, P x -> Q x) -> length (filter P l) <= length (filter Q l).
Proof.
  intros HPQ. induction l as [|x l IH]; [done|].
  rewrite !filter_cons. repeat case_decide; simpl; try lia.
  exfalso. auto.
Qed.

Lemma ascending_tail t ts : ascending (t :: ts) -> ascending ts.
Proof. intros H i a b Ha Hb. exact (H (S i) a b Ha Hb). Qed.

(** For ascending thresholds the thresholds reached are exactly the first
    [bucket] ones. *)
Lemma bucket_prefix ts v :
  ascending ts ->
  forall i t, ts !! i = Some t -> (Num.ge v t = true <-> i < bucket ts v).
Proof.
  unfold bucket. induction ts as [|t0 ts IH]; intros Hasc i t Hi; [done|].
  pose proof (ascending_tail _ _ Hasc) as Hasc'.
  destruct (Num.ge v t0) eqn:E0.
  - rewrite filter_cons_True by done. simpl.
    destruct i as [|i]; simpl in Hi.
    + simplify_eq. split; [lia | done].
    + rewrite (IH Hasc' i t Hi). lia.
  - rewrite filter_cons_False by (by rewrite E0).
    rewrite filter_none.
    + simpl. split; [|lia]. intros Hge. exfalso.
      destruct i as [|i]; simpl in Hi; [simplify_eq; congruence|].
      assert (Hlt : Num.lt t0 t = true).
      { eapply (ascending_lt (t0 :: ts) 0 (S i)); [done | lia | done | done]. }
      rewrite (ge_lt_trans v t0 t Hge Hlt) in E0. discriminate.
    + intros x Hx Hge. apply list_elem_of_lookup in Hx as [j Hj].
      assert (Hlt : Num.lt t0 x = true).
      { eapply (ascending_lt (t0 :: ts) 0 (S j)); [done | lia | done | done]. }
      rewrite (ge_lt_trans v t0 x Hge Hlt) in E0. discriminate.
Qed.

Lemma numeric_color_bucket (cs : ColorSchemeNumeric) (value : jsval) :
  ascending (limits cs) -> length (colors cs) = length (limits cs) ->
  Numeric.color_from_value cs value
  = bucket_color cs (bucket (limits cs) (ToNumber value)).
Proof.
  intros Hasc Hlen.
  pose proof (bucket_prefix (limits cs) (ToNumber value) Hasc) as Hpre.
  assert (Hk : bucket (limits cs) (ToNumber value) <= length (limits cs))
    by apply length_filter.
  destruct (bucket (limits cs) (ToNumber value)) as [|k] eqn:Ek; simpl.
  - apply NumericFacts.numeric_none. intros j tj Hj.
    destruct (Num.ge (ToNumber value) tj) eqn:E; [|done].
    apply (Hpre j tj Hj) in E. lia.
  - destruct (lookup_lt_is_Some_2 (limits cs) k) as [tk Htk]; [lia|].
    destruct (lookup_lt_is_Some_2 (colors cs) k) as [c Hc]; [lia|].
    rewrite Hc.
    apply (NumericFacts.numeric_last cs value k tk c); [done | done | |].
    + apply (Hpre k tk Htk). lia.
    + intros j tj Hkj Hj.
      destruct (Num.ge (ToNumber value) tj) eqn:E; [|done].
      apply (Hpre j tj Hj) in E. lia.
Qed.

(** X7. The colour scale is monotone.  With ascending thresholds and as many
    colours, the colour of a value is that of its bucket (the number of
    thresholds it reaches), and a larger value never falls in an earlier
    bucket. *)
Theorem numeric_color_monotone (cs : ColorSchemeNumeric) (v w : jsval) :
  ascending (limits cs) -> length (colors cs) = length (limits cs) ->
  Num.le (ToNumber v) (ToNumber w) = true ->
  Numeric.color_from_value cs v = bucket_color cs (bucket (limits cs) (ToNumber v))
  /\ Numeric.color_from_value cs w = bucket_color cs (bucket (limits cs) (ToNumber w))
  /\ bucket (limits cs) (ToNumber v) <= bucket (limits cs) (ToNumber w).
Proof.
  intros Hasc Hlen Hle.
  split; [by apply numeric_color_bucket|]. split; [by apply numeric_color_bucket|].
  unfold bucket. apply filter_length_mono. intros t Ht.
  rewrite NumFacts.le_ge in Hle. by eapply NumFacts.ge_trans.
Qed.

Lemma ttColorScheme_ascending : ascending (limits ttColorScheme).
Proof.
  intros i a b Ha Hb.
  do 7 (destruct i as [|i]; [vm_compute in Ha, Hb; simplify_eq; reflexivity|]).
  vm_compute in Ha. discriminate.
Qed.

Lemma numeric_color_monotone_witness :
  let v := VNum (Fin (Q2Qc (76 # 10))) in
  let w := VNum (Num.of_Z 22) in
  Numeric.color_from_value ttColorScheme v = bucket_color ttColorScheme 2
  /\ Numeric.color_from_value ttColorScheme w = bucket_color ttColorScheme 5
  /\ 2 <= 5.
Proof.
  exact (numeric_color_monotone ttColorScheme (VNum (Fin (Q2Qc (76 # 10))))
           (VNum (Num.of_Z 22)) ttColorScheme_ascending eq_refl eq_refl).
Defined.


(** * Further properties of the travel-time update *)

Lemma max_idem t : Num.max t t = t.
Proof. NumFacts.num_order. Qed.

Lemma fold_max_from_NaN xs : fold_left Num.max xs NaN = NaN.
Proof. induction xs as [|x xs IH]; [done|]. exact IH. Qed.

Lemma fold_max_with_NaN xs t :
  NaN ∈ xs -> fold_left Num.max xs t = NaN.
Proof.
  revert t. induction xs as [|x xs IH]; intros t Hin; [by apply elem_of_nil in Hin|].
  apply elem_of_cons in Hin as [<-|Hin]; simpl.
  - rewrite NumFacts.max_NaN_r. apply fold_max_from_NaN.
  - by apply IH.
Qed.

Lemma is_NaN_true x : Num.is_NaN x = true -> x = NaN.
Proof. by destruct x. Qed.

Lemma all_numbers_or_NaN (xs : list number) :
  (forall x, x ∈ xs -> Num.is_NaN x = false) \/ NaN ∈ xs.
Proof.
  induction xs as [|x xs [IH|IH]].
  - left. intros x Hx. by apply elem_of_nil in Hx.
  - destruct (Num.is_NaN x) eqn:E.
    + right. apply is_NaN_true in E as ->. left.
    + left. intros y Hy. apply elem_of_cons in Hy as [->|Hy]; [done | by apply IH].
  - right. by right.
Qed.

(** [fold_left Num.max] only depends on the set of the numbers folded. *)
Lemma fold_max_same_elements xs ys t :
  (forall x, x ∈ xs <-> x ∈ ys) ->
  fold_left Num.max xs t = fold_left Num.max ys t.
Proof.
  intros Hsame.
  destruct (Num.is_NaN t) eqn:Et.
  { apply is_NaN_true in Et as ->. by rewrite !fold_max_from_NaN. }
  destruct (all_numbers_or_NaN xs) as [Hxs|Hnan].
  - assert (Hys : forall y, y ∈ ys -> Num.is_NaN y = false)
      by (intros y Hy; apply Hxs; by apply Hsame).
    destruct (fold_max_bounds xs t Et Hxs) as (Hin1 & Hle1 & Hall1).
    destruct (fold_max_bounds ys t Et Hys) as (Hin2 & Hle2 & Hall2).
    apply NumFacts.le_antisym.
    + destruct Hin1 as [->|Hin1]; [done|]. apply Hall2. by apply Hsame.
    + destruct Hin2 as [->|Hin2]; [done|]. apply Hall1. by apply Hsame.
  - rewrite !fold_max_with_NaN; [done | by apply Hsame | done].
Qed.

(** The loop, with the reads of ["tt"] itself taken out: they return the
    running value and leave it as it is. *)
Lemma running_filter P ds t :
  running P ds t
  = fold_left Num.max
      (map (fun d => ToNumber (js_get P d)) (filter (fun d => d <> "tt") ds)) t.
Proof.
  revert t. induction ds as [|d ds IH]; intros t; [done|].
  rewrite running_cons. destruct (decide (d = "tt")) as [->|Hne].
  - rewrite filter_cons_False by (intros H; by apply H).
    rewrite js_get_insert_eq. simpl. by rewrite max_idem.
  - rewrite filter_cons_True by done. simpl.
    rewrite js_get_insert_ne by done. apply IH.
Qed.

Lemma final_tt_same_elements P ds ds' :
  (forall d, d ∈ ds <-> d ∈ ds') -> final_tt P ds = final_tt P ds'.
Proof.
  intros Hsame.
  destruct ds as [|d0 ds0] eqn:Hds, ds' as [|d0' ds0'] eqn:Hds'; [done | | |].
  - exfalso. eapply elem_of_nil. apply Hsame. left.
  - exfalso. eapply elem_of_nil. apply Hsame. left.
  - unfold final_tt. rewrite !running_filter.
    apply fold_max_same_elements. intros x.
    rewrite !list_elem_of_fmap. split; intros (d & -> & Hd); exists d; (split; [done|]);
      apply list_elem_of_filter in Hd as [Hne Hd]; apply list_elem_of_filter;
      (split; [done|]); by apply Hsame.
Qed.

(** X8. The value left in ["tt"] does not depend on the order in which the
    destinations are listed, nor on repetitions in the list: two selections
    with the same members give the same layers. *)
Theorem update_travel_times_selection_as_set (L : list Layer) (D D' : list string)
    (layer : nat) (l : Layer) :
  L !! layer = Some l ->
  (forall d, d ∈ D <-> d ∈ D') ->
  fst (update_travel_times layer {| h_layers := L; h_destinations := D |})
  = fst (update_travel_times layer {| h_layers := L; h_destinations := D' |})
  /\ h_layers (snd (update_travel_times layer {| h_layers := L; h_destinations := D |}))
     = h_layers (snd (update_travel_times layer {| h_layers := L; h_destinations := D' |})).
Proof.
  intros Hl Hsame.
  rewrite !(update_travel_times_spec _ layer l) by done. simpl.
  split; [done|]. f_equal.
  unfold recompute. destruct (feature l) as [f|]; [|done].
  by rewrite (final_tt_same_elements _ D D').
Qed.

Lemma update_travel_times_selection_as_set_witness :
  h_layers (snd (update_travel_times 0 (block_heap ["parks"; "cafes"; "parks"])))
  = h_layers (snd (update_travel_times 0 (block_heap ["cafes"; "parks"]))).
Proof.
  apply (update_travel_times_selection_as_set (h_layers (block_heap []))
           ["parks"; "cafes"; "parks"] ["cafes"; "parks"] 0
           {| leaflet_id := 41; feature := Some block_feature |} eq_refl).
  intros d. rewrite !elem_of_cons, !elem_of_nil. tauto.
Defined.

Lemma tt_of_update_snd (h : heap) (layer : nat) (l : Layer) (f : Feature) :
  h_layers h !! layer = Some l -> feature l = Some f ->
  tt_of (snd (update_travel_times layer h)) layer
  = Some (VNum (final_tt (properties f) (h_destinations h))).
Proof.
  intros Hl Hf. destruct (tt_of_update h layer l f Hl Hf) as (h' & Hrun & Hres).
  by rewrite Hrun.
Qed.

Lemma final_tt_nonempty P ds :
  ds <> [] ->
  final_tt P ds
  = fold_left Num.max
      (map (fun d => ToNumber (js_get P d)) (filter (fun d => d <> "tt") ds))
      (Num.of_Z 0).
Proof. intros Hne. destruct ds; [done|]. apply running_filter. Qed.

(** X9. The call always leaves a number in ["tt"], and never a negative one:
    the result is [NaN] or at least 0.  Travel times that are negative (or
    [null]) are raised to 0: when every selected travel time is at most 0,
    the result is 0. *)
Theorem update_travel_times_floor (h : heap) (layer : nat) (l : Layer) (f : Feature) :
  h_layers h !! layer = Some l -> feature l = Some f ->
  exists t,
    tt_of (snd (update_travel_times layer h)) layer = Some (VNum t)
    /\ (Num.is_NaN t = true \/ Num.ge t (Num.of_Z 0) = true)
    /\ (h_destinations h <> [] ->
        (forall d, d ∈ h_destinations h -> d <> "tt" ->
           Num.le (ToNumber (js_get (properties f) d)) (Num.of_Z 0) = true) ->
        t = Num.of_Z 0).
Proof.
  intros Hl Hf. exists (final_tt (properties f) (h_destinations h)).
  split; [by apply (tt_of_update_snd h layer l f)|].
  destruct (decide (h_destinations h = [])) as [HD|HD].
  { rewrite HD. split; [by right | done]. }
  rewrite final_tt_nonempty by done.
  set (xs := map _ _).
  destruct (all_numbers_or_NaN xs) as [Hxs|Hnan].
  - destruct (fold_max_bounds xs (Num.of_Z 0) eq_refl Hxs) as (Hin & Hle & Hall).
    split; [right; by rewrite <- NumFacts.le_ge|].
    intros _ Hneg. destruct Hin as [Hr|Hin]; [done|].
    apply NumFacts.le_antisym; [|done].
    subst xs. apply list_elem_of_fmap in Hin as (d & Hd & Hin).
    apply list_elem_of_filter in Hin as [Hne Hin].
    rewrite Hd. by apply Hneg.
  - rewrite fold_max_with_NaN by done. split; [by left|].
    intros _ Hneg. exfalso.
    subst xs. apply list_elem_of_fmap in Hnan as (d & Hd & Hin).
    apply list_elem_of_filter in Hin as [Hne Hin].
    specialize (Hneg d Hin Hne). rewrite <- Hd in Hneg. discriminate.
Qed.

(** A block with a negative and a [null] travel time: the result is 0. *)
Lemma update_travel_times_floor_witness :
  let f := {| geometry := Polygon [];
              properties := {[ "parks" := VNum (Num.of_Z (-3)); "cafes" := VNull ]} |} in
  let h := {| h_layers := [ {| leaflet_id := 7; feature := Some f |} ];
              h_destinations := ["parks"; "cafes"] |} in
  tt_of (snd (update_travel_times 0 h)) 0 = Some (VNum (Num.of_Z 0)).
Proof.
  intros f h.
  destruct (update_travel_times_floor h 0 {| leaflet_id := 7; feature := Some f |} f
              eq_refl eq_refl) as (t & -> & _ & Hzero).
  rewrite Hzero; [done | done |].
  intros d Hd _.
  apply elem_of_cons in Hd as [->|Hd]; [reflexivity|].
  apply elem_of_cons in Hd as [->|Hd]; [reflexivity|].
  by apply elem_of_nil in Hd.
Defined.

(** X10. Selecting more destinations never lowers the displayed travel time:
    for a non-empty selection contained in a larger one whose travel times
    are all numbers, the value left in ["tt"] by the smaller selection is
    at most the one left by the larger. *)
Theorem update_travel_times_monotone_selection (L : list Layer) (D D' : list string)
    (layer : nat) (l : Layer) (f : Feature) :
  L !! layer = Some l -> feature l = Some f ->
  D <> [] -> (forall d, d ∈ D -> d ∈ D') ->
  (forall d, d ∈ D' -> d <> "tt" ->
     Num.is_NaN (ToNumber (js_get (properties f) d)) = false) ->
  exists t t',
    tt_of (snd (update_travel_times layer {| h_layers := L; h_destinations := D |})) layer
    = Some (VNum t)
    /\ tt_of (snd (update_travel_times layer {| h_layers := L; h_destinations := D' |})) layer
       = Some (VNum t')
    /\ Num.le t t' = true.
Proof.
  intros Hl Hf HD Hsub Hnum.
  assert (HD' : D' <> []).
  { destruct D as [|d0 D0]; [done|]. intros ->.
    eapply elem_of_nil. apply Hsub. left. }
  exists (final_tt (properties f) D), (final_tt (properties f) D').
  split; [by rewrite (tt_of_update_snd _ layer l f)|].
  split; [by rewrite (tt_of_update_snd _ layer l f)|].
  rewrite !final_tt_nonempty by done.
  set (g := fun d => ToNumber (js_get (properties f) d)).
  assert (Hys : forall y, y ∈ map g (filter (fun d => d <> "tt") D') ->
                  Num.is_NaN y = false).
  { intros y Hy. apply list_elem_of_fmap in Hy as (d & -> & Hd).
    apply list_elem_of_filter in Hd as [Hne Hd]. by apply Hnum. }
  assert (Hxy : forall x, x ∈ map g (filter (fun d => d <> "tt") D) ->
                  x ∈ map g (filter (fun d => d <> "tt") D')).
  { intros x Hx. apply list_elem_of_fmap in Hx as (d & -> & Hd).
    apply list_elem_of_filter in Hd as [Hne Hd].
    apply list_elem_of_fmap. exists d. split; [done|].
    apply list_elem_of_filter. split; [done | by apply Hsub]. }
  destruct (fold_max_bounds _ (Num.of_Z 0) eq_refl Hys) as (_ & Hle' & Hall').
  destruct (fold_max_bounds (map g (filter (fun d => d <> "tt") D)) (Num.of_Z 0) eq_refl)
    as (Hin & _ & _); [intros x Hx; apply Hys; by apply Hxy|].
  destruct Hin as [->|Hin]; [done|]. apply Hall'. by apply Hxy.
Qed.

Lemma update_travel_times_monotone_selection_witness :
  exists t t',
    tt_of (snd (update_travel_times 0 (block_heap ["cafes"]))) 0 = Some (VNum t)
    /\ tt_of (snd (update_travel_times 0 (block_heap ["groceries"; "cafes"]))) 0
       = Some (VNum t')
    /\ Num.le t t' = true.
Proof.
  apply (update_travel_times_monotone_selection (h_layers (block_heap []))
           ["cafes"] ["groceries"; "cafes"] 0
           {| leaflet_id := 41; feature := Some block_feature |} block_feature
           eq_refl eq_refl).
  - done.
  - intros d Hd. by right.
  - intros d Hd _.
    apply elem_of_cons in Hd as [->|Hd]; [reflexivity|].
    apply elem_of_cons in Hd as [->|Hd]; [reflexivity|].
    by apply elem_of_nil in Hd.
Defined.

(** X11. No stale value: what the call leaves does not depend on what ["tt"]
    held before. *)
Theorem update_travel_times_ignores_old_tt (L : list Layer) (D : list string)
    (layer : nat) (id : Z) (g : Geometry) (P : gmap string jsval) (v : jsval) :
  layer < length L ->
  update_travel_times layer (heap_at L D layer id g (<["tt" := v]> P))
  = update_travel_times layer (heap_at L D layer id g P).
Proof.
  intros Hlt. rewrite !update_travel_times_run by done.
  by rewrite final_tt_insert_tt, insert_insert_eq.
Qed.

Lemma update_travel_times_ignores_old_tt_witness :
  update_travel_times 0
    (heap_at (h_layers (block_heap [])) ["parks"] 0 41 (Polygon [])
       (<["tt" := VNum (Num.of_Z 999)]> (properties block_feature)))
  = update_travel_times 0 (block_heap ["parks"]).
Proof.
  rewrite (update_travel_times_ignores_old_tt (h_layers (block_heap [])) ["parks"] 0 41
             (Polygon []) (properties block_feature) (VNum (Num.of_Z 999)));
    [reflexivity | simpl; lia].
Defined.


(** * Further properties of the pass and of the handler *)

(** X12. The pass never throws, although it visits layers without a feature;
    it keeps the selection and the number of layers, and it leaves each
    layer exactly as one call on that layer alone would leave it: the
    layers do not influence one another. *)
Theorem recompute_all_layerwise (h : heap) :
  exists h',
    recompute_all h = (Normal (), h')
    /\ h_destinations h' = h_destinations h
    /\ length (h_layers h') = length (h_layers h)
    /\ (forall layer, layer < length (h_layers h) ->
          fst (update_travel_times layer h) = Normal layer
          /\ h_layers h' !! layer
             = h_layers (snd (update_travel_times layer h)) !! layer).
Proof.
  eexists. split; [apply recompute_all_spec|]. simpl.
  split; [done|]. split; [by rewrite length_fmap|].
  intros layer Hlt.
  destruct (lookup_lt_is_Some_2 _ _ Hlt) as [l Hl].
  rewrite (update_travel_times_spec h layer l Hl). simpl.
  split; [done|].
  by rewrite list_lookup_fmap, Hl, list_lookup_insert_eq.
Qed.

Lemma recompute_all_layerwise_witness :
  exists h',
    recompute_all (block_heap ["parks"]) = (Normal (), h')
    /\ h_layers h' !! 0
       = h_layers (snd (update_travel_times 0 (block_heap ["parks"]))) !! 0
    /\ h_layers h' !! 1 = Some {| leaflet_id := 42; feature := None |}.
Proof.
  destruct (recompute_all_layerwise (block_heap ["parks"]))
    as (h' & Hrun & _ & _ & Hlayers).
  exists h'. split; [exact Hrun|]. split.
  - apply Hlayers. simpl. lia.
  - destruct (Hlayers 1) as [_ ->]; [simpl; lia | reflexivity].
Defined.

Lemma visit_any_order (L : list Layer) (D : list string) ks : forall Lk,
  length Lk = length L ->
  (forall j, Lk !! j = L !! j \/ Lk !! j = recompute D <$> L !! j) ->
  (forall j, j ∈ ks -> j < length L) ->
  exists Lk',
    for_each_index ks (fun layer => update_travel_times layer ;; mret ())
      {| h_layers := Lk; h_destinations := D |}
    = (Normal (), {| h_layers := Lk'; h_destinations := D |})
    /\ length Lk' = length L
    /\ (forall j, j ∈ ks -> Lk' !! j = recompute D <$> L !! j)
    /\ (forall j, j ∉ ks -> Lk' !! j = Lk !! j).
Proof.
  induction ks as [|k ks IH]; intros Lk Hlen Hinv Hks.
  - exists Lk. split; [done|]. split; [done|].
    split; [intros j Hj; by apply elem_of_nil in Hj | done].
  - assert (Hk : k < length L) by (apply Hks; left).
    destruct (lookup_lt_is_Some_2 L k Hk) as [l Hl].
    assert (Hlk : exists l', Lk !! k = Some l' /\ recompute D l' = recompute D l).
    { destruct (Hinv k) as [E|E]; rewrite Hl in E.
      - by exists l.
      - exists (recompute D l). split; [done | apply recompute_idempotent]. }
    destruct Hlk as (l' & Hl' & Hrec).
    destruct (IH (<[k := recompute D l]> Lk)) as (Lk' & Hrun & Hlen' & Hin & Hout).
    + by rewrite length_insert.
    + intros j. destruct (decide (j = k)) as [->|Hne].
      * right. rewrite list_lookup_insert_eq by lia. by rewrite Hl.
      * rewrite list_lookup_insert_ne by done. apply Hinv.
    + intros j Hj. apply Hks. by right.
    + exists Lk'. split; [|split; [done|split]].
      * simpl. unfold mbind at 1, M_bind at 1.
        unfold mbind at 1, M_bind at 1.
        rewrite (update_travel_times_spec _ k l') by done.
        unfold mret at 1, M_ret at 1. cbn [h_layers h_destinations].
        by rewrite Hrec.
      * intros j Hj. destruct (decide (j ∈ ks)) as [Hjks|Hjks]; [by apply Hin|].
        apply elem_of_cons in Hj as [->|Hj]; [|done].
        rewrite (Hout k Hjks), list_lookup_insert_eq by lia. by rewrite Hl.
      * intros j Hj. apply not_elem_of_cons in Hj as [Hne Hj].
        rewrite (Hout j Hj). by apply list_lookup_insert_ne.
Qed.

(** X13. The order of the visit does not matter: visiting the layers in any
    order, some of them several times, gives the heap that the pass gives. *)
Theorem recompute_all_any_order (h : heap) (ks : list nat) :
  (forall j, j ∈ ks <-> j < length (h_layers h)) ->
  for_each_index ks (fun layer => update_travel_times layer ;; mret ()) h
  = recompute_all h.
Proof.
  intros Hks. rewrite recompute_all_spec. destruct h as [L D]. simpl in *.
  destruct (visit_any_order L D ks L) as (Lk' & Hrun & Hlen & Hin & _);
    [done | by left | by intros j Hj; apply Hks|].
  rewrite Hrun. do 2 f_equal.
  apply list_eq. intros j. rewrite list_lookup_fmap.
  destruct (decide (j < length L)) as [Hj|Hj].
  - apply Hin. by apply Hks.
  - rewrite (lookup_ge_None_2 Lk' j), (lookup_ge_None_2 L j) by lia. done.
Qed.

Lemma recompute_all_any_order_witness :
  for_each_index [1; 0; 1] (fun layer => update_travel_times layer ;; mret ())
    (block_heap ["groceries"; "parks"])
  = recompute_all (block_heap ["groceries"; "parks"]).
Proof.
  apply recompute_all_any_order. intros j. simpl.
  rewrite !elem_of_cons, elem_of_nil. lia.
Defined.

(** ** The selection read from the checkboxes *)

Lemma all_destinations_keys : all_destinations = fst <$> destinations.
Proof. reflexivity. Qed.

Lemma all_destinations_NoDup : NoDup all_destinations.
Proof. apply (bool_decide_unpack (NoDup all_destinations)). by vm_compute. Qed.

(** X14. The loop of [get_map_terms] returns exactly the known
    destinations whose box is checked, each once, in the order of the
    [destinations] object. *)
Theorem get_map_terms_checked (checked : string -> bool) :
  (forall d, d ∈ get_map_terms checked <-> d ∈ all_destinations /\ checked d = true)
  /\ NoDup (get_map_terms checked)
  /\ sublist (get_map_terms checked) all_destinations.
Proof.
  rewrite get_map_terms_filter. split; [|split].
  - intros d. rewrite list_elem_of_filter. tauto.
  - apply NoDup_filter, all_destinations_NoDup.
  - apply sublist_filter.
Qed.

Lemma get_map_terms_checked_witness :
  "parks" ∈ get_map_terms (fun d => bool_decide (d ∈ ["tt"; "parks"]))
  /\ "tt" ∉ get_map_terms (fun d => bool_decide (d ∈ ["tt"; "parks"])).
Proof.
  destruct (get_map_terms_checked (fun d => bool_decide (d ∈ ["tt"; "parks"])))
    as (Hmem & _ & _).
  split.
  - apply Hmem. split; [|reflexivity].
    unfold all_destinations. do 2 right. left.
  - intros Htt. apply Hmem in Htt as [Htt _]. unfold all_destinations in Htt.
    repeat (apply elem_of_cons in Htt as [Htt|Htt]; [discriminate|]).
    by apply elem_of_nil in Htt.
Defined.

Lemma filter_ext_elem {A : Type} (P Q : A -> Prop)
    `{!forall x, Decision (P x)} `{!forall x, Decision (Q x)} (l : list A) :
  (forall x, x ∈ l -> (P x <-> Q x)) -> filter P l = filter Q l.
Proof.
  induction l as [|x l IH]; intros Hext; [done|].
  rewrite !filter_cons.
  rewrite IH by (intros y Hy; apply Hext; by right).
  destruct (decide (P x)) as [HP|HP], (decide (Q x)) as [HQ|HQ]; try done;
    exfalso; apply (Hext x ltac:(left)) in HP || apply (Hext x ltac:(left)) in HQ; done.
Qed.

Lemma filter_sublist_NoDup (t l : list string) :
  NoDup l -> sublist t l -> filter (fun x => bool_decide (x ∈ t) = true) l = t.
Proof.
  intros Hnd Hsub. induction Hsub as [|x t l Hsub IH|x t l Hsub IH].
  - done.
  - apply NoDup_cons in Hnd as [Hx Hnd].
    rewrite filter_cons_True by (apply bool_decide_eq_true; left).
    f_equal. etrans; [|exact (IH Hnd)].
    apply filter_ext_elem. intros y Hy. rewrite !bool_decide_eq_true.
    split; [|by right]. intros Hyt.
    apply elem_of_cons in Hyt as [->|Hyt]; [done | done].
  - apply NoDup_cons in Hnd as [Hx Hnd].
    rewrite filter_cons_False.
    + by apply IH.
    + rewrite bool_decide_eq_true. intros Hxt. apply Hx.
      by eapply sublist_subseteq.
Qed.

(** X15. Reading the boxes back gives the selection they were set from: when
    the boxes checked are those named in a list that follows the order of
    [destinations], [get_map_terms] returns that list.  In particular the
    initial value of [map_terms] is what the handler would read on the
    freshly loaded page. *)
Theorem get_map_terms_round_trip (terms : list string) :
  sublist terms all_destinations ->
  get_map_terms (fun dest => bool_decide (dest ∈ terms)) = terms.
Proof.
  intros Hsub. rewrite get_map_terms_filter.
  by apply filter_sublist_NoDup; [apply all_destinations_NoDup|].
Qed.

Lemma get_map_terms_round_trip_witness : get_map_terms checked_init = map_terms_init.
Proof.
  apply (get_map_terms_round_trip map_terms_init).
  unfold map_terms_init, all_destinations.
  apply sublist_skip. apply sublist_nil_l.
Defined.

(** *** Restyling *)

Lemma setStyle_loop (h : heap) ks :
  (forall j, j ∈ ks -> exists l f, h_layers h !! j = Some l /\ feature l = Some f) ->
  for_each_index ks (fun layer => call_tt_style layer ;; mret ()) h = (Normal (), h).
Proof.
  induction ks as [|k ks IH]; intros Hks; [done|].
  destruct (Hks k) as (l & f & Hl & Hf); [left|].
  simpl. unfold mbind at 1, M_bind at 1.
  unfold mbind at 1, M_bind at 1, call_tt_style at 1.
  rewrite Hl. destruct l as [id fo]. simpl in Hf. rewrite Hf.
  unfold mret at 1, M_ret at 1.
  apply IH. intros j Hj. apply Hks. by right.
Qed.

Lemma setStyle_loop_throws (h : heap) ks k l :
  k ∈ ks -> h_layers h !! k = Some l -> feature l = None ->
  (forall j, j ∈ ks -> j < length (h_layers h)) ->
  for_each_index ks (fun layer => call_tt_style layer ;; mret ()) h = (Throw TypeError, h).
Proof.
  intros Hk Hl Hf. induction ks as [|k0 ks IH]; intros Hks; [by apply elem_of_nil in Hk|].
  destruct (lookup_lt_is_Some_2 (h_layers h) k0) as [l0 Hl0]; [apply Hks; left|].
  simpl. unfold mbind at 1, M_bind at 1.
  unfold mbind at 1, M_bind at 1, call_tt_style at 1.
  rewrite Hl0. destruct l0 as [id0 [f0|]]; [|done].
  unfold mret at 1, M_ret at 1.
  apply elem_of_cons in Hk as [->|Hk].
  - rewrite Hl in Hl0. by simplify_eq.
  - apply IH; [done|]. intros j Hj. apply Hks. by right.
Qed.

Lemma setStyle_all_features (h : heap) :
  all_features h -> setStyle call_tt_style h = (Normal (), h).
Proof.
  intros Hall. unfold setStyle, eachLayer. apply setStyle_loop.
  intros j Hj. apply elem_of_seq in Hj.
  destruct (lookup_lt_is_Some_2 (h_layers h) j) as [l Hl]; [lia|].
  destruct (Hall j l Hl) as [f Hf]. by exists l, f.
Qed.

Lemma setStyle_missing_feature (h : heap) (k : nat) (l : Layer) :
  h_layers h !! k = Some l -> feature l = None ->
  setStyle call_tt_style h = (Throw TypeError, h).
Proof.
  intros Hl Hf. unfold setStyle, eachLayer.
  apply (setStyle_loop_throws h _ k l); [|done|done|].
  - apply elem_of_seq. apply lookup_lt_Some in Hl. lia.
  - intros j Hj. apply elem_of_seq in Hj. lia.
Qed.

Lemma recompute_feature dests l : feature (recompute dests l) = None <-> feature l = None.
Proof.
  unfold recompute. destruct (feature l) eqn:E; simpl.
  - split; discriminate.
  - by rewrite E.
Qed.

Lemma recompute_all_keeps_features (h : heap) :
  all_features h -> all_features (snd (recompute_all h)).
Proof.
  intros Hall j l' Hl'. rewrite recompute_all_spec in Hl'. simpl in Hl'.
  rewrite list_lookup_fmap in Hl'.
  destruct (h_layers h !! j) as [l|] eqn:Hl; [|done]. simpl in Hl'. simplify_eq.
  destruct (Hall j l Hl) as [f Hf].
  destruct (feature (recompute (h_destinations h) l)) eqn:E; [done|].
  apply recompute_feature in E. congruence.
Qed.

Lemma on_input_unfold (checked : string -> bool) (h : heap) :
  on_input checked h
  = setStyle call_tt_style
      (snd (recompute_all {| h_layers := h_layers h;
                             h_destinations := get_map_terms checked |})).
Proof.
  unfold on_input, mbind, M_bind. by rewrite recompute_all_spec.
Qed.




(** X17. When the page loads, the script does to the layers what an
    [input] event with the initially checked boxes does: on every heap the
    first pass with its restyling and the handler give the same outcome and
    the same heap, with ["groceries"] selected; both complete when every
    layer carries a feature. *)
Theorem initial_pass_agrees_with_handler (h : heap) :
  initial_pass h = on_input checked_init h
  /\ h_destinations (snd (initial_pass h)) = ["groceries"]
  /\ (all_features h -> fst (initial_pass h) = Normal ()).
Proof.
  assert (E : initial_pass h = on_input checked_init h).
  { rewrite on_input_unfold.
    replace (get_map_terms checked_init) with map_terms_init by (by vm_compute).
    unfold initial_pass, mbind, M_bind. by rewrite recompute_all_spec. }
  split; [exact E|].
  rewrite E, on_input_unfold.
  set (h1 := snd (recompute_all _)).
  assert (HD : h_destinations h1 = ["groceries"]).
  { unfold h1. rewrite recompute_all_spec. by vm_compute. }
  split.
  - unfold setStyle, eachLayer.
    assert (Hkeep : forall ks, snd (for_each_index ks
              (fun layer => call_tt_style layer ;; mret ()) h1) = h1).
    { induction ks as [|k ks IH]; [done|].
      simpl. unfold mbind at 1, M_bind at 1.
      unfold mbind at 1, M_bind at 1, call_tt_style at 1.
      destruct (h_layers h1 !! k) as [[id [f|]]|]; first [done | apply IH]. }
    by rewrite Hkeep.
  - intros Hall. rewrite setStyle_all_features; [done|].
    unfold h1. apply recompute_all_keeps_features.
    intros j l Hl. by apply (Hall j).
Qed.

Lemma initial_pass_agrees_with_handler_witness :
  fst (initial_pass {| h_layers := [ {| leaflet_id := 41; feature := Some block_feature |} ];
                       h_destinations := [] |}) = Normal ().
Proof.
  destruct (initial_pass_agrees_with_handler
              {| h_layers := [ {| leaflet_id := 41; feature := Some block_feature |} ];
                 h_destinations := [] |}) as (_ & _ & Hok).
  apply Hok. intros j l Hl. destruct j as [|j]; [|done].
  simpl in Hl. simplify_eq. by eexists.
Defined.

(** X22. The restyling is not guarded as [update_travel_times] is: when
    some layer has no feature, the [input] handler throws a [TypeError],
    and it does so only after the pass, so the selection and every ["tt"]
    have already been updated in the heap it leaves. *)
Theorem on_input_throws_without_feature (checked : string -> bool) (h : heap)
    (k : nat) (l : Layer) :
  h_layers h !! k = Some l -> feature l = None ->
  on_input checked h
  = (Throw TypeError,
     snd (recompute_all {| h_layers := h_layers h;
                           h_destinations := get_map_terms checked |}))
  /\ fst (recompute_all {| h_layers := h_layers h;
                          h_destinations := get_map_terms checked |}) = Normal ().
Proof.
  intros Hl Hf. split; [|by rewrite recompute_all_spec].
  rewrite on_input_unfold.
  apply (setStyle_missing_feature _ k (recompute (get_map_terms checked) l)).
  - rewrite recompute_all_spec. simpl. by rewrite list_lookup_fmap, Hl.
  - by apply recompute_feature.
Qed.

Lemma on_input_throws_without_feature_witness :
  let checked d := bool_decide (d ∈ ["parks"]) in
  fst (on_input checked (block_heap [])) = Throw TypeError
  /\ h_destinations (snd (on_input checked (block_heap []))) = ["parks"]
  /\ tt_of (snd (on_input checked (block_heap []))) 0 = Some (VNum (Num.of_Z 12)).
Proof.
  intros checked.
  destruct (on_input_throws_without_feature checked (block_heap []) 1
              {| leaflet_id := 42; feature := None |} eq_refl eq_refl) as [-> _].
  by vm_compute.
Defined.


(** * The labels of the info box *)

Lemma tt_label_Fin (v : jsval) (q : Qc) :
  ToNumber v = Fin q ->
  tt_label v
  = if negb (Qle_bool 5 q) then "<5 min."
    else if negb (Qle_bool q 30) then ">30 min."
    else NilZero.string_of_int (Z.to_int (Qfloor (q + (1 # 2)))) +:+ " min.".
Proof.
  intros Hv. unfold tt_label. rewrite Hv.
  unfold Num.lt, Num.IsLessThan, Num.of_Z.
  change (Q2Qc (inject_Z 5) : Q) with 5%Q. change (Q2Qc (inject_Z 30) : Q) with 30%Q.
  by destruct (Qle_bool 5 q), (Qle_bool q 30).
Qed.

(** X18. The label of a walking time [q]: "<5 min." below 5, ">30 min." above
    30, and from 5 to 30 the nearest whole number of minutes (a half
    rounds up), which is itself between 5 and 30. *)
Theorem tt_label_cases (v : jsval) (q : Qc) :
  ToNumber v = Fin q ->
  ((q < 5)%Q -> tt_label v = "<5 min.")
  /\ ((30 < q)%Q -> tt_label v = ">30 min.")
  /\ ((5 <= q)%Q -> (q <= 30)%Q ->
      exists z : Z,
        tt_label v = NilZero.string_of_int (Z.to_int z) +:+ " min."
        /\ (5 <= z <= 30)%Z
        /\ (inject_Z z - (1 # 2) <= q)%Q /\ (q < inject_Z z + (1 # 2))%Q).
Proof.
  intros Hv. rewrite (tt_label_Fin v q Hv).
  split; [|split].
  - intros Hlt. destruct (Qle_bool 5 q) eqn:E; [|done].
    apply Qle_bool_iff in E. exfalso. lra.
  - intros Hgt. destruct (Qle_bool 5 q) eqn:E5; simpl.
    + destruct (Qle_bool q 30) eqn:E30; [|done].
      apply Qle_bool_iff in E30. exfalso. lra.
    + apply NumFacts.Qle_bool_false in E5. exfalso. lra.
  - intros H5 H30.
    rewrite (proj2 (Qle_bool_iff 5 q) H5), (proj2 (Qle_bool_iff q 30) H30). simpl.
    exists (Qfloor (q + (1 # 2))). split; [done|].
    pose proof (Qfloor_le (q + (1 # 2))) as Hlo.
    pose proof (Qlt_floor (q + (1 # 2))) as Hhi.
    rewrite inject_Z_plus in Hhi. change (inject_Z 1) with 1%Q in Hhi.
    split; [|split; [lra | lra]].
    split.
    + change 5%Z with (Qfloor (11 # 2)). apply Qfloor_resp_le. lra.
    + change 30%Z with (Qfloor (61 # 2)). apply Qfloor_resp_le. lra.
Qed.

Example tt_label_examples :
  map (fun q => tt_label (VNum (Fin (Q2Qc q))))
      [3 # 1; 5 # 1; 176 # 10; 295 # 10; 30 # 1; 301 # 10]%Q
  = ["<5 min."; "5 min."; "18 min."; "30 min."; "30 min."; ">30 min."].
Proof. vm_compute. reflexivity. Qed.

Lemma tt_label_cases_witness :
  let v := VNum (Fin (Q2Qc (176 # 10))) in
  exists z : Z,
    tt_label v = NilZero.string_of_int (Z.to_int z) +:+ " min."
    /\ (5 <= z <= 30)%Z
    /\ (inject_Z z - (1 # 2) <= 88 # 5)%Q /\ (88 # 5 < inject_Z z + (1 # 2))%Q.
Proof.
  intros v.
  destruct (tt_label_cases v (Q2Qc (176 # 10)) eq_refl) as (_ & _ & Hmid).
  apply Hmid; done.
Defined.

(** X19. A walking time that is not a number is neither below 5 nor above 30:
    the box prints "NaN min." for it.  This is what a selected destination
    without an entry in the feature shows. *)
Theorem tt_label_of_missing (feature : gmap string jsval) (d : string) :
  feature !! d = None \/ Num.is_NaN (ToNumber (js_get feature d)) = true ->
  tt_label (js_get feature d) = "NaN min.".
Proof.
  intros H.
  assert (Hnan : ToNumber (js_get feature d) = NaN).
  { destruct H as [H|H].
    - unfold js_get. by rewrite H.
    - by apply is_NaN_true. }
  unfold tt_label. by rewrite Hnan.
Qed.

Lemma tt_label_of_missing_witness :
  tt_label (js_get (properties block_feature) "libraries") = "NaN min.".
Proof. apply tt_label_of_missing. by left. Defined.

Lemma ge_Fin_of_Z (q : Qc) (z : Z) :
  Num.ge (Fin q) (Num.of_Z z) = Qle_bool (inject_Z z) q.
Proof.
  unfold Num.ge, Num.IsLessThan, Num.of_Z.
  assert (E : Qle_bool (Q2Qc (inject_Z z)) q = Qle_bool (inject_Z z) q).
  { destruct (Qle_bool (inject_Z z) q) eqn:E.
    - apply Qle_bool_iff. apply Qle_bool_iff in E.
      simpl. by rewrite Qred_correct.
    - destruct (Qle_bool (Q2Qc (inject_Z z)) q) eqn:E'; [|done].
      apply Qle_bool_iff in E'. simpl in E'. rewrite Qred_correct in E'.
      apply Qle_bool_iff in E'. congruence. }
  rewrite E. by destruct (Qle_bool (inject_Z z) q).
Qed.

(** X20. At both ends of the scale the hover label and the map colour agree: a
    time from 0 to below 5 is labelled "<5 min." and painted in the first
    colour, the one of the legend entry "Under 5 min"; a time above 30 is
    labelled ">30 min." and painted in the last colour, "Over 30 min". *)
Theorem tt_label_agrees_with_color (v : jsval) (q : Qc) :
  ToNumber v = Fin q ->
  ((0 <= q)%Q -> (q < 5)%Q ->
     tt_label v = "<5 min."
     /\ Numeric.color_from_value ttColorScheme v = colors ttColorScheme !! 0
     /\ labels ttColorScheme !! 0 = Some "Under 5 min")
  /\ ((30 < q)%Q ->
      tt_label v = ">30 min."
      /\ Numeric.color_from_value ttColorScheme v = colors ttColorScheme !! 6
      /\ labels ttColorScheme !! 6 = Some "Over 30 min").
Proof.
  intros Hv. rewrite (tt_label_Fin v q Hv). split.
  - intros H0 H5. split; [|split; [|done]].
    + destruct (Qle_bool 5 q) eqn:E; [|done].
      apply Qle_bool_iff in E. exfalso. lra.
    + apply (NumericFacts.numeric_last ttColorScheme v 0 (Num.of_Z 0)); [done | done | |].
      * rewrite Hv, ge_Fin_of_Z. apply Qle_bool_iff. exact H0.
      * intros j tj Hj Htj. rewrite Hv.
        do 7 (destruct j as [|j];
              [try lia; vm_compute in Htj; simplify_eq;
               match goal with
               | |- Num.ge _ (Fin (Qcmake (?n # 1) _)) = _ =>
                   change (Num.ge (Fin q) (Num.of_Z n) = false)
               end;
               rewrite ge_Fin_of_Z;
               match goal with
               | |- ?b = false => destruct b eqn:E; [|done]
               end;
               apply Qle_bool_iff in E; unfold inject_Z in E; exfalso; lra|]).
        vm_compute in Htj. discriminate.
  - intros H30. split; [|split; [|done]].
    + destruct (Qle_bool 5 q) eqn:E5; simpl.
      * destruct (Qle_bool q 30) eqn:E30; [|done].
        apply Qle_bool_iff in E30. exfalso. lra.
      * apply NumFacts.Qle_bool_false in E5. exfalso. lra.
    + apply (NumericFacts.numeric_last ttColorScheme v 6 (Num.of_Z 30)); [done | done | |].
      * rewrite Hv, ge_Fin_of_Z. apply Qle_bool_iff. unfold inject_Z. lra.
      * intros j tj Hj Htj. apply lookup_lt_Some in Htj. simpl in Htj. lia.
Qed.

Lemma tt_label_agrees_with_color_witness :
  let v := VNum (Fin (Q2Qc (31 # 10))) in
  tt_label v = "<5 min."
  /\ Numeric.color_from_value ttColorScheme v = Some "#0868ac"
  /\ labels ttColorScheme !! 0 = Some "Under 5 min".
Proof.
  intros v.
  destruct (tt_label_agrees_with_color v (Q2Qc (31 # 10)) eq_refl) as [Hlow _].
  apply Hlow; done.
Defined.

Lemma snoc_loop_map {A B : Type} (f : A -> B) (l : list A) (acc : list B) :
  fold_left (fun written d => (written ++ [f d])%list) l acc = (acc ++ map f l)%list.
Proof.
  revert acc. induction l as [|x l IH]; intros acc; simpl.
  - by rewrite app_nil_r.
  - by rewrite IH, <- app_assoc.
Qed.

(** X21. What [info.update] writes.  Without a feature, or with nothing
    selected, it writes the prompt and appends nothing.  With a feature and
    a non-empty selection of destinations it writes the heading "Walking
    time" and appends one paragraph per selected destination, in the order
    of the selection: a [<p>] element holding the label of the destination,
    a colon and the label of its walking time. *)
Theorem info_update_paragraphs (inherited_text : string -> option string)
    (feature : gmap string jsval) (map_terms : list string) :
  let q := String "034"%char "" in
  let prompt := "<h4>Select destinations, then<br/>hover over a tract for details</h4>" in
  info_update inherited_text None map_terms = (prompt, [])
  /\ info_update inherited_text (Some feature) [] = (prompt, [])
  /\ (map_terms <> [] -> (forall d, d ∈ map_terms -> d ∈ all_destinations) ->
      fst (info_update inherited_text (Some feature) map_terms)
      = "<h4 style=" +:+ q +:+ "margin:0px;" +:+ q +:+ "><u>Walking time</u></h4>"
      /\ Forall2
           (fun d piece =>
              exists label, (d, label) ∈ destinations
                /\ piece = "<p style=" +:+ q +:+ "margin:0px;" +:+ q +:+ ">"
                             +:+ label +:+ ": " +:+ tt_label (js_get feature d)
                             +:+ "</p>")
           map_terms (snd (info_update inherited_text (Some feature) map_terms))).
Proof.
  intros q prompt. split; [done|]. split; [done|].
  intros Hne Hknown. unfold info_update.
  destruct map_terms as [|d0 ds] eqn:Hm; [done|]. rewrite <- Hm in *.
  replace (length map_terms =? 0)%nat with false by (by rewrite Hm).
  split; [done|]. cbn [snd].
  rewrite snoc_loop_map. cbn [app].
  apply Forall2_fmap_r, Forall_Forall2_diag, Forall_forall.
  intros d Hd. specialize (Hknown d Hd). unfold all_destinations in Hknown.
  repeat (apply elem_of_cons in Hknown as [->|Hknown];
          [eexists; split; [|reflexivity]; unfold destinations;
           repeat first [by left | right] |]).
  by apply elem_of_nil in Hknown.
Qed.

Lemma info_update_paragraphs_witness :
  let q := String "034"%char "" in
  info_update (fun _ => None) (Some (properties block_feature)) ["parks"; "groceries"]
  = ("<h4 style=" +:+ q +:+ "margin:0px;" +:+ q +:+ "><u>Walking time</u></h4>",
     ["<p style=" +:+ q +:+ "margin:0px;" +:+ q +:+ ">Parks: 12 min.</p>";
      "<p style=" +:+ q +:+ "margin:0px;" +:+ q +:+ ">Supermarkets: <5 min.</p>"]).
Proof.
  intros q.
  destruct (info_update_paragraphs (fun _ => None) (properties block_feature)
              ["parks"; "groceries"]) as (_ & _ & Hsel).
  destruct Hsel as [Hhead Hpieces]; [done | |].
  - intros d Hd. unfold all_destinations.
    apply elem_of_cons in Hd as [->|Hd]; [do 2 right; left|].
    apply elem_of_cons in Hd as [->|Hd]; [left|].
    by apply elem_of_nil in Hd.
  - by vm_compute.
Defined.
